(** * Versioned endpoint routing: a shallow embedding of package [api]

    The Go package keeps a registry ([ApiServer]) of named endpoints ([Api]).
    Every endpoint owns a set of versions (method to handler maps), a table of
    alias paths (each with its own method to version map) and the map of
    default versions per method ([mainlines]).  Configuration calls mutate
    the registry through pointers and panic on misuse; the closures that the
    calls register with the router read the registry again at request time.

    The embedding follows the latest revision of the package, the one in
    which [Api.alias] fills a map of its own for every alias.  It threads
    the registry through a small state-and-panic monad.  A [*Api] pointer
    is modelled by the key under which the endpoint is stored in
    [endpoints]: objects are only ever allocated by [ApiServer.endpoint],
    which stores them there and never removes them.  Handlers and the
    router library stay opaque: a request ends in a call of a handler, in a
    text written to the response, or in a panic. *)

From Stdlib Require Import Ascii.
From stdpp Require Import gmap strings list fin_maps pretty.

#[local] Open Scope string_scope.

(** ** Strings and formatting *)

(** The double quote character, by its code point. *)
Definition dquote : string := String (Ascii.ascii_of_nat 34) EmptyString.

(** [fmt.Sprintf] with the verb [%d] on an [int]. *)
Definition fmt_d (n : Z) : string := pretty n.

(** The one message every dispatch failure formats:
    [fmt.Sprintf] of [Not found %s]. *)
Definition not_found (what : string) : string := "Not found " +:+ what.

(** The message of a redefined alias: [fmt.Sprintf] of [redefine alias %s]. *)
Definition redefine_alias (path : string) : string := "redefine alias " +:+ path.

(** Messages of the Go runtime for the two run-time panics the package can
    raise besides its own. *)
Definition index_out_of_range : string :=
  "runtime error: index out of range".
Definition nil_dereference : string :=
  "runtime error: invalid memory address or nil pointer dereference".

(** A [*Api]: the key of the endpoint in [endpoints]. *)
Abbreviation ApiRef := string (only parsing).

(** ** The response side of a request *)

Section Routing.

(** [type Handler func(http.ResponseWriter, *http.Request)]: handlers are
    opaque to the router, which only decides whether one is called. *)
Variable Handler : Type.

(** The parts of [*http.Request] the package reads. *)
Record Request := { Method : string; RemoteAddr : string }.

(** What a registered closure does with a request: it calls a handler with
    the writer and the request, writes a text to the writer, or panics. *)
Inductive Outcome :=
| Invoked (handler : Handler)
| Wrote (body : string)
| Crashed (msg : string).

(** A served request: the lines printed on the process' standard output
    ([fmt.Println]) together with the outcome. *)
Definition Served : Type := list string * Outcome.

(** [message[i]] on a Go string: a byte, or an index panic. *)
Definition byte_at (message : string) (i : nat) : option Ascii.ascii :=
  String.get i message.

Definition is_byte (c : Ascii.ascii) (b : Ascii.ascii) : bool := bool_decide (c = b).

(** [message[0] == open && message[len(message) - 1] == close], with the
    short-circuit of [&&]: the last byte is only read when the first one
    matched.  [None] stands for the index panic. *)
Definition delimited (message : string) (open close : Ascii.ascii) : option bool :=
  first ← byte_at message 0;
  if is_byte first open
  then last ← byte_at message (String.length message - 1);
       Some (is_byte last close)
  else Some false.

(** The two texts [fmt.Fprintf] produces in [pack]. *)
Definition envelope_raw (code : Z) (message : string) : string :=
  "{" +:+ dquote +:+ "code" +:+ dquote +:+ ": " +:+ fmt_d code +:+ ", "
      +:+ dquote +:+ "data" +:+ dquote +:+ ": " +:+ message +:+ "}".

Definition envelope_quoted (code : Z) (message : string) : string :=
  "{" +:+ dquote +:+ "code" +:+ dquote +:+ ": " +:+ fmt_d code +:+ ", "
      +:+ dquote +:+ "data" +:+ dquote +:+ ": "
      +:+ dquote +:+ message +:+ dquote +:+ "}".

(** [pack(w)(code, message)]. *)
Definition pack (code : Z) (message : string) : Outcome :=
  match delimited message "{"%char "}"%char with
  | None => Crashed index_out_of_range
  | Some true => Wrote (envelope_raw code message)
  | Some false =>
      match delimited message "["%char "]"%char with
      | None => Crashed index_out_of_range
      | Some true => Wrote (envelope_raw code message)
      | Some false => Wrote (envelope_quoted code message)
      end
  end.

(** [self.nok(w)(code, message)] and [self.ok(w)(message)]. *)
Definition nok (code : Z) (message : string) : Outcome := pack code message.
Definition ok (message : string) : Outcome := pack 200 message.

(** ** The registry *)

Record Version := { methods : gmap string Handler }.

Record Alias := { code : gmap string string }.

Definition PUBLIC : Z := 0.
Definition PRIVATE : Z := 1.
Definition PROTECTED : Z := 2.

(** [type Api struct].  The [owner] pointer is implicit: an endpoint lives
    in the [endpoints] map of the server that created it. *)
Record Api := {
  aliases : gmap string Alias;
  versions : gmap string Version;
  mainlines : gmap string string;
  level : Z;
  enable : bool;
  name : string;
  main : string
}.

(** The closures handed to [router.HandleFunc], with what they capture. *)
Inductive Closure :=
| AliasClosure (self : ApiRef) (path : string)
| ReorderClosure (endpoint : string) (code : string).

(** [type ApiServer struct].  The router is the list of registrations, in
    the order of the calls. *)
Record ApiServer := {
  endpoints : gmap string Api;
  router : list (string * Closure);
  base : string;
  agent : string
}.

(** ** Configuration monad: state and panics *)

(** A panic keeps the state it was raised in: what was written before the
    panic stays written. *)
Inductive Res (A : Type) :=
| Done (a : A) (srv : ApiServer)
| Panicked (msg : string) (srv : ApiServer).
Arguments Done {A} a srv.
Arguments Panicked {A} msg srv.

Definition Cfg (A : Type) : Type := ApiServer → Res A.

Definition cfg_ret {A} (a : A) : Cfg A := λ srv, Done a srv.

Definition cfg_bind {A B} (m : Cfg A) (k : A → Cfg B) : Cfg B := λ srv,
  match m srv with
  | Done a srv' => k a srv'
  | Panicked msg srv' => Panicked msg srv'
  end.

Definition panic {A} (msg : string) : Cfg A := λ srv, Panicked msg srv.

#[global] Instance cfg_mret : MRet Cfg := λ A a, cfg_ret a.
#[global] Instance cfg_mbind : MBind Cfg := λ A B k m, cfg_bind m k.

(** The server after an assignment through a [*Api], and after one more
    registration with the router. *)
Definition with_endpoint (self : ApiRef) (api : Api) (srv : ApiServer) : ApiServer :=
  {| endpoints := <[self := api]> (endpoints srv);
     router := router srv; base := base srv; agent := agent srv |}.

Definition with_route (path : string) (f : Closure) (srv : ApiServer) : ApiServer :=
  {| endpoints := endpoints srv;
     router := router srv ++ [(path, f)];
     base := base srv; agent := agent srv |}.

Definition with_routes (l : list (string * Closure)) (srv : ApiServer) : ApiServer :=
  {| endpoints := endpoints srv;
     router := router srv ++ l;
     base := base srv; agent := agent srv |}.

(** Reading through a [*Api]. *)
Definition deref (self : ApiRef) : Cfg Api := λ srv,
  match endpoints srv !! self with
  | Some api => Done api srv
  | None => Panicked nil_dereference srv
  end.

(** Writing through a [*Api]. *)
Definition store (self : ApiRef) (api : Api) : Cfg unit := λ srv,
  Done () (with_endpoint self api srv).

(** [self.owner.base]. *)
Definition owner_base : Cfg string := λ srv, Done (base srv) srv.

(** [router.HandleFunc(path, f)]. *)
Definition HandleFunc (path : string) (f : Closure) : Cfg unit := λ srv,
  Done () (with_route path f srv).

(** A [for ... range] loop whose body is a configuration action. *)
Fixpoint for_range {A} (l : list A) (body : A → Cfg unit) : Cfg unit :=
  match l with
  | [] => mret ()
  | x :: l' => body x;; for_range l' body
  end.

(** ** Access policy *)

(** [ApiServer.isLocal] and [ApiServer.isInternal]: both print the remote
    address and answer no, whatever the request. *)
Definition isLocal (r : Request) : list string * bool := ([RemoteAddr r], false).
Definition isInternal (r : Request) : list string * bool := ([RemoteAddr r], false).

(** [Api.isAllowed], on the endpoint as it is when the request arrives. *)
Definition isAllowed (self : Api) (r : Request) : list string * bool :=
  if negb (enable self) then ([], false)
  else if decide (level self = PUBLIC) then ([], true)
  else if decide (level self = PRIVATE) then isLocal r
  else if decide (level self = PROTECTED) then isInternal r
  else ([], false).

(** ** Configuration calls *)

(** [ApiServer.newApi]: [level] is not assigned and keeps the zero value of
    [int]. *)
Definition newApi (name : string) : Api :=
  {| aliases := ∅; versions := ∅; mainlines := ∅;
     level := 0; enable := true; name := name; main := "" |}.

(** [ApiServer.endpoint]. *)
Definition endpoint (endpoint : string) : Cfg ApiRef := λ srv,
  match endpoints srv !! endpoint with
  | Some _ => Done endpoint srv
  | None =>
      Done endpoint (with_endpoint endpoint (newApi endpoint) srv)
  end.

(** [Api.endpoint]: the same call, through the owner. *)
Definition Api_endpoint (self : ApiRef) (name : string) : Cfg ApiRef :=
  _ ← deref self; endpoint name.

(** The loop of [Api.alias] that fills the fresh [code] map of an alias from
    [mainlines], one entry at a time. *)
Definition copy_mainlines (mainlines : gmap string string) : gmap string string :=
  map_fold (λ key val code, <[key := val]> code) ∅ mainlines.

(** The assignments of [Api.alias] to the endpoint: a new alias whose
    [code] map is filled from [mainlines]. *)
Definition declare_alias (path : string) (api : Api) : Api :=
  {| aliases := <[path := {| code := copy_mainlines (mainlines api) |}]> (aliases api);
     versions := versions api; mainlines := mainlines api;
     level := level api; enable := enable api;
     name := name api; main := main api |}.

(** [Api.alias]. *)
Definition alias (self : ApiRef) (path : string) : Cfg ApiRef :=
  api ← deref self;
  if decide (is_Some (aliases api !! path))
  then panic (redefine_alias path)
  else
    store self (declare_alias path api);;
    HandleFunc path (AliasClosure self path);;
    mret self.

(** The assignments of [Api.version]: the version is created when it is
    not there yet, and becomes the one under configuration. *)
Definition select_version (code : string) (api : Api) : Api :=
  {| aliases := aliases api;
     versions := match versions api !! code with
                 | Some _ => versions api
                 | None => <[code := {| methods := ∅ |}]> (versions api)
                 end;
     mainlines := mainlines api;
     level := level api; enable := enable api;
     name := name api; main := code |}.

(** [Api.version]. *)
Definition version (self : ApiRef) (code : string) : Cfg ApiRef :=
  api ← deref self;
  store self (select_version code api);;
  mret self.

(** The assignments of [Api.handle], [ver] being the version under
    configuration. *)
Definition bind_handler (method : string) (handler : Handler) (ver : Version)
    (api : Api) : Api :=
  {| aliases := aliases api;
     versions := <[main api := {| methods := <[method := handler]> (methods ver) |}]>
                   (versions api);
     mainlines := match mainlines api !! method with
                  | Some _ => mainlines api
                  | None => <[method := main api]> (mainlines api)
                  end;
     level := level api; enable := enable api;
     name := name api; main := main api |}.

Definition version_first : string := "Please specifiy version before doing anything".
Definition version_missing : string := "There is something wrong with creating new version".

(** [Api.handle]. *)
Definition handle (self : ApiRef) (method : string) (handler : Handler) : Cfg ApiRef :=
  api ← deref self;
  if decide (String.length (main api) = 0)
  then panic version_first
  else
    match versions api !! main api with
    | None => panic version_missing
    | Some ver =>
        store self (bind_handler method handler ver api);;
        mret self
    end.

(** The canonical path of one version in [Api.mock]. *)
Definition mock_dest (base ver path : string) : string :=
  if decide (0 < String.length base)
  then "/" +:+ base +:+ "/" +:+ ver +:+ path
  else "/" +:+ ver +:+ path.

(** The alias path of [Api.mock]. *)
Definition mock_alias_path (base path : string) : string :=
  if decide (0 < String.length base) then "/" +:+ base +:+ path else path.

(** [Api.mock].  Go leaves the order in which [range] visits a map open;
    the loop here visits the keys in the order of [map_to_list]. *)
Definition mock (self : ApiRef) (path : string) : Cfg ApiRef :=
  api ← deref self;
  base ← owner_base;
  for_range (map_to_list (versions api)).*1
    (λ ver, HandleFunc (mock_dest base ver path) (ReorderClosure (name api) ver));;
  alias self (mock_alias_path base path).

(** ** Request dispatch *)

(** The closure returned by [ApiServer.reorder], run on the registry as it
    is when the request arrives. *)
Definition reorder (self : ApiServer) (endpoint code : string) (r : Request) : Served :=
  match endpoints self !! endpoint with
  | None => ([], nok 404 (not_found endpoint))
  | Some api =>
      match versions api !! code with
      | None => ([], nok 404 (not_found endpoint))
      | Some ver =>
          match methods ver !! Method r with
          | None => ([], nok 404 (not_found endpoint))
          | Some handler =>
              let '(out, allowed) := isAllowed api r in
              if allowed then (out, Invoked handler)
              else (out, nok 404 (not_found endpoint))
          end
      end
  end.

(** The closure registered by [Api.alias], run on the registry as it is when
    the request arrives.  A missing key of a Go map reads as the zero value,
    here the empty version key.  (The source writes [self.nok] on the
    endpoint; the only [nok] of the package is the server's.) *)
Definition alias_closure (srv : ApiServer) (self : ApiRef) (path : string)
    (r : Request) : Served :=
  match endpoints srv !! self with
  | None => ([], Crashed nil_dereference)
  | Some api =>
      match aliases api !! path with
      | None => ([], Crashed nil_dereference)
      | Some a =>
          let code := default "" (code a !! Method r) in
          match versions api !! code with
          | None => ([], nok 404 (not_found path))
          | Some ver =>
              match methods ver !! Method r with
              | None => ([], nok 404 (not_found path))
              | Some handler =>
                  let '(out, allowed) := isAllowed api r in
                  if allowed then (out, Invoked handler)
                  else (out, nok 404 (not_found path))
              end
          end
      end
  end.

(** Running a registered closure. *)
Definition serve (srv : ApiServer) (f : Closure) (r : Request) : Served :=
  match f with
  | AliasClosure self path => alias_closure srv self path r
  | ReorderClosure endpoint code => reorder srv endpoint code r
  end.

(** ** The public surface *)

Definition GetMuxer (self : ApiServer) : list (string * Closure) := router self.

(** The server as [NewApiServer] allocates it, before any endpoint. *)
Definition emptyApiServer (base agent : string) : ApiServer :=
  {| endpoints := ∅; router := []; base := base; agent := agent |}.

(** [NewApiServer]: neither [base] nor [agent] is assigned; [resolve] is the
    handler [ret.resolve]. *)
Definition NewApiServer (resolve : Handler) (user_agent : string) : Res ApiRef :=
  (self ← endpoint "query";
   self ← version self "v1";
   self ← mock self "/query";
   handle self "PUT" resolve) (emptyApiServer "" "").

(** ** Reachable registries *)

(** The configuration calls of the package. *)
Inductive Call :=
| CallEndpoint (name : string)
| CallVersion (self : ApiRef) (code : string)
| CallHandle (self : ApiRef) (method : string) (handler : Handler)
| CallAlias (self : ApiRef) (path : string)
| CallMock (self : ApiRef) (path : string).

Definition call (c : Call) : Cfg ApiRef :=
  match c with
  | CallEndpoint name => endpoint name
  | CallVersion self code => version self code
  | CallHandle self method handler => handle self method handler
  | CallAlias self path => alias self path
  | CallMock self path => mock self path
  end.

(** A script of calls; it stops at the first panic. *)
Fixpoint run (cs : list Call) : Cfg unit :=
  match cs with
  | [] => mret ()
  | c :: cs' => _ ← call c; run cs'
  end.

(** The registries a configuration phase can leave behind: a panic aborts
    startup, so only completed calls count. *)
Inductive reachable : ApiServer → Prop :=
| reachable_empty base agent : reachable (emptyApiServer base agent)
| reachable_call c srv self srv' :
    reachable srv → call c srv = Done self srv' → reachable srv'.

(** ** Consistency of a registry *)

(** Method [method] has a handler in version [v] of the endpoint. *)
Definition bound_in (api : Api) (v method : string) : Prop :=
  ∃ ver, versions api !! v = Some ver ∧ is_Some (methods ver !! method).

(** What the configuration calls maintain about the endpoint stored under
    [key]. *)
Record api_consistent (key : string) (api : Api) : Prop := {
  ac_name : name api = key;
  ac_enable : enable api = true;
  ac_level : level api = PUBLIC;
  ac_main : main api ≠ "" → is_Some (versions api !! main api);
  ac_default : ∀ method v,
    mainlines api !! method = Some v → v ≠ "" ∧ bound_in api v method;
  ac_unset : ∀ ver, versions api !! "" = Some ver → methods ver = ∅;
  ac_alias : ∀ path a, aliases api !! path = Some a → code a ⊆ mainlines api
}.

(** What they maintain about the registry: consistent endpoints, and
    registered closures that refer to what exists. *)
Record registry_consistent (srv : ApiServer) : Prop := {
  rc_endpoints : ∀ key api, endpoints srv !! key = Some api → api_consistent key api;
  rc_alias_routes : ∀ path self p,
    (path, AliasClosure self p) ∈ router srv →
    ∃ api, endpoints srv !! self = Some api ∧ is_Some (aliases api !! p);
  rc_direct_routes : ∀ path endpoint code,
    (path, ReorderClosure endpoint code) ∈ router srv →
    ∃ api, endpoints srv !! endpoint = Some api ∧ is_Some (versions api !! code)
}.

(** ** The effect of one completed call on one endpoint *)

(** The endpoint a call goes through, if any. *)
Definition call_target (c : Call) : option string :=
  match c with
  | CallEndpoint _ => None
  | CallVersion self _ => Some self
  | CallHandle self _ _ => Some self
  | CallAlias self _ => Some self
  | CallMock self _ => Some self
  end.

(** [api_step key base api c api']: a completed call [c] on a server with
    base [base] turns the endpoint [api] stored under [key] into [api']. *)
Inductive api_step (key base : string) (api : Api) : Call → Api → Prop :=
| step_untouched c :
    call_target c ≠ Some key → api_step key base api c api
| step_version code :
    api_step key base api (CallVersion key code) (select_version code api)
| step_handle method handler ver :
    main api ≠ "" →
    versions api !! main api = Some ver →
    api_step key base api (CallHandle key method handler)
      (bind_handler method handler ver api)
| step_alias path :
    aliases api !! path = None →
    api_step key base api (CallAlias key path) (declare_alias path api)
| step_mock path :
    aliases api !! mock_alias_path base path = None →
    api_step key base api (CallMock key path)
      (declare_alias (mock_alias_path base path) api).

End Routing.

Arguments Invoked {Handler} handler.
Arguments Wrote {Handler} body.
Arguments Crashed {Handler} msg.
Arguments pack {Handler} code message.
Arguments nok {Handler} code message.
Arguments ok {Handler} message.
Arguments methods {Handler} _.
Arguments aliases {Handler} _.
Arguments versions {Handler} _.
Arguments mainlines {Handler} _.
Arguments level {Handler} _.
Arguments enable {Handler} _.
Arguments name {Handler} _.
Arguments main {Handler} _.
Arguments endpoints {Handler} _.
Arguments router {Handler} _.
Arguments base {Handler} _.
Arguments agent {Handler} _.
Arguments Done {Handler A} a srv.
Arguments Panicked {Handler A} msg srv.
Arguments panic {Handler A} msg _.
Arguments with_endpoint {Handler} self api srv.
Arguments with_route {Handler} path f srv.
Arguments with_routes {Handler} l srv.
Arguments deref {Handler} self _.
Arguments store {Handler} self api _.
Arguments owner_base {Handler} _.
Arguments HandleFunc {Handler} path f _.
Arguments for_range {Handler A} l body _.
Arguments isAllowed {Handler} self r.
Arguments newApi {Handler} name.
Arguments endpoint {Handler} endpoint _.
Arguments Api_endpoint {Handler} self name _.
Arguments declare_alias {Handler} path api.
Arguments select_version {Handler} code api.
Arguments bind_handler {Handler} method handler ver api.
Arguments alias {Handler} self path _.
Arguments version {Handler} self code _.
Arguments handle {Handler} self method handler _.
Arguments mock {Handler} self path _.
Arguments reorder {Handler} self endpoint code r.
Arguments alias_closure {Handler} srv self path r.
Arguments serve {Handler} srv f r.
Arguments GetMuxer {Handler} self.
Arguments emptyApiServer {Handler} base agent.
Arguments NewApiServer {Handler} resolve user_agent.
Arguments CallEndpoint {Handler} name.
Arguments CallVersion {Handler} self code.
Arguments CallHandle {Handler} self method handler.
Arguments CallAlias {Handler} self path.
Arguments CallMock {Handler} self path.
Arguments call {Handler} c _.
Arguments run {Handler} cs _.
Arguments reachable {Handler} _.
Arguments call_target {Handler} c.
Arguments api_step {Handler} key base api _ _.
Arguments bound_in {Handler} api v method.
Arguments api_consistent {Handler} key api.
Arguments registry_consistent {Handler} srv.
Arguments ac_name {Handler key api} _.
Arguments ac_enable {Handler key api} _.
Arguments ac_level {Handler key api} _.
Arguments ac_main {Handler key api} _ _.
Arguments ac_default {Handler key api} _ method v _.
Arguments ac_unset {Handler key api} _ ver _.
Arguments ac_alias {Handler key api} _ path a _.
Arguments rc_endpoints {Handler srv} _ key api _.
Arguments rc_alias_routes {Handler srv} _ path self p _.
Arguments rc_direct_routes {Handler srv} _ path endpoint code _.

(** ** Every call and its result, case by case *)

(** The state a result carries, whether the call completed or panicked. *)
Definition final_state {Handler A} (res : Res Handler A) : ApiServer Handler :=
  match res with
  | Done _ srv => srv
  | Panicked _ srv => srv
  end.

(** The registrations of the loop of [Api.mock] on a server with base
    [base], for the endpoint [api]. *)
Definition mock_routes {Handler} (base : string) (api : Api Handler)
    (path : string) : list (string * Closure) :=
  (λ ver, (mock_dest base ver path, ReorderClosure (name api) ver))
    <$> (map_to_list (versions api)).*1.

(** [call_result srv c res]: the call [c] on the registry [srv] ends in
    [res].  One rule per path through the source of the call. *)
Inductive call_result {Handler} (srv : ApiServer Handler) :
    Call Handler → Res Handler string → Prop :=
| result_endpoint_known endpoint_name api :
    endpoints srv !! endpoint_name = Some api →
    call_result srv (CallEndpoint endpoint_name) (Done endpoint_name srv)
| result_endpoint_fresh endpoint_name :
    endpoints srv !! endpoint_name = None →
    call_result srv (CallEndpoint endpoint_name)
      (Done endpoint_name (with_endpoint endpoint_name (newApi endpoint_name) srv))
| result_dangling c self :
    call_target c = Some self →
    endpoints srv !! self = None →
    call_result srv c (Panicked nil_dereference srv)
| result_version self code api :
    endpoints srv !! self = Some api →
    call_result srv (CallVersion self code)
      (Done self (with_endpoint self (select_version code api) srv))
| result_handle_unset self method handler api :
    endpoints srv !! self = Some api →
    main api = "" →
    call_result srv (CallHandle self method handler) (Panicked version_first srv)
| result_handle_missing self method handler api :
    endpoints srv !! self = Some api →
    main api ≠ "" →
    versions api !! main api = None →
    call_result srv (CallHandle self method handler) (Panicked version_missing srv)
| result_handle_bound self method handler api ver :
    endpoints srv !! self = Some api →
    main api ≠ "" →
    versions api !! main api = Some ver →
    call_result srv (CallHandle self method handler)
      (Done self (with_endpoint self (bind_handler method handler ver api) srv))
| result_alias_known self path api :
    endpoints srv !! self = Some api →
    is_Some (aliases api !! path) →
    call_result srv (CallAlias self path) (Panicked (redefine_alias path) srv)
| result_alias_fresh self path api :
    endpoints srv !! self = Some api →
    aliases api !! path = None →
    call_result srv (CallAlias self path)
      (Done self (with_route path (AliasClosure self path)
                    (with_endpoint self (declare_alias path api) srv)))
| result_mock_known self path api :
    endpoints srv !! self = Some api →
    is_Some (aliases api !! mock_alias_path (base srv) path) →
    call_result srv (CallMock self path)
      (Panicked (redefine_alias (mock_alias_path (base srv) path))
         (with_routes (mock_routes (base srv) api path) srv))
| result_mock_fresh self path api :
    endpoints srv !! self = Some api →
    aliases api !! mock_alias_path (base srv) path = None →
    call_result srv (CallMock self path)
      (Done self
         (with_route (mock_alias_path (base srv) path)
            (AliasClosure self (mock_alias_path (base srv) path))
            (with_endpoint self (declare_alias (mock_alias_path (base srv) path) api)
               (with_routes (mock_routes (base srv) api path) srv)))).

(** ** What configuration only ever adds *)

(** [api_extends api api']: the endpoint [api'] has the name, level and
    enabled flag of [api], every version of [api] with at least its bound
    methods, every alias of [api] with the same map, and every default of
    [api]. *)
Definition api_extends {Handler} (api api' : Api Handler) : Prop :=
  name api' = name api
  ∧ level api' = level api
  ∧ enable api' = enable api
  ∧ (∀ v ver, versions api !! v = Some ver →
       ∃ ver', versions api' !! v = Some ver'
               ∧ ∀ method, is_Some (methods ver !! method) →
                           is_Some (methods ver' !! method))
  ∧ (∀ path a, aliases api !! path = Some a → aliases api' !! path = Some a)
  ∧ mainlines api ⊆ mainlines api'.

(** [registry_extends srv srv']: the routes of [srv] are a prefix of the
    routes of [srv'], base and agent are the same, and every endpoint of
    [srv] is extended by the endpoint of the same key in [srv']. *)
Definition registry_extends {Handler} (srv srv' : ApiServer Handler) : Prop :=
  (∃ added, router srv' = (router srv ++ added)%list)
  ∧ base srv' = base srv
  ∧ agent srv' = agent srv
  ∧ (∀ key api, endpoints srv !! key = Some api →
       ∃ api', endpoints srv' !! key = Some api' ∧ api_extends api api').

(** ** Vocabulary of the specification *)

(** The specification speaks of a text that starts with one character and
    ends with another; [pack] reads bytes by index.  These two readings are
    compared below. *)
Definition first_byte (m : string) : option Ascii.ascii :=
  match m with
  | EmptyString => None
  | String c _ => Some c
  end.

Fixpoint last_byte (m : string) : option Ascii.ascii :=
  match m with
  | EmptyString => None
  | String c EmptyString => Some c
  | String _ rest => last_byte rest
  end.

Definition starts_with (c : Ascii.ascii) (m : string) : bool :=
  bool_decide (first_byte m = Some c).

Definition ends_with (c : Ascii.ascii) (m : string) : bool :=
  bool_decide (last_byte m = Some c).

(** A payload that is already a JSON object or array, as the specification
    recognises one. *)
Definition looks_like_json (m : string) : bool :=
  (starts_with "{" m && ends_with "}" m) || (starts_with "[" m && ends_with "]" m).

(** The specification's base path: the [base] of the server behind a
    slash, or nothing when the server has no [base]. *)
Definition basePath (base : string) : string :=
  if decide (0 < String.length base) then "/" +:+ base else "".

(** The route shapes the specification names for mounting. *)
Definition spec_versioned_path (base ver suffix : string) : string :=
  basePath base +:+ "/" +:+ ver +:+ suffix.

Definition spec_alias_path (base suffix : string) : string :=
  basePath base +:+ suffix.

(** Alias uniqueness as the specification words it: a path that is an
    alias of any endpoint of the registry cannot be declared again, through
    whichever endpoint. *)
Definition spec_alias_unique {Handler} (srv : ApiServer Handler) : Prop :=
  ∀ self other api path,
    endpoints srv !! other = Some api →
    is_Some (aliases api !! path) →
    is_Some (endpoints srv !! self) →
    ∃ srv', alias self path srv = Panicked (redefine_alias path) srv'.

(** ** Concrete registries used as test inputs *)

Module Demo.

Definition put : Request := {| Method := "PUT"; RemoteAddr := "10.0.0.7:4242" |}.
Definition get : Request := {| Method := "GET"; RemoteAddr := "10.0.0.7:4242" |}.

(** The state a result carries, whether the call completed or panicked. *)
Definition state_of {A} (r : Res string A) : ApiServer string :=
  match r with
  | Done _ srv => srv
  | Panicked _ srv => srv
  end.

(** The server of [NewApiServer], with a handler named by a string. *)
Definition query_server : ApiServer string :=
  state_of (NewApiServer "resolve" "test").

(** Two endpoints; the first one has declared the alias [/x]. *)
Definition two_endpoints : ApiServer string :=
  state_of ((a ← endpoint "a"; _ ← alias a "/x"; endpoint "b")
              (emptyApiServer "" "")).

(** An endpoint an operator has switched to level PRIVATE. *)
Definition private_api : Api string :=
  {| aliases := {[ "/admin" := {| code := {[ "PUT" := "v1" ]} |} ]};
     versions := {[ "v1" := {| methods := {[ "PUT" := "reload" ]} |} ]};
     mainlines := {[ "PUT" := "v1" ]};
     level := PRIVATE; enable := true; name := "admin"; main := "v1" |}.

Definition private_server : ApiServer string :=
  {| endpoints := {[ "admin" := private_api ]};
     router := [("/v1/admin", ReorderClosure "admin" "v1");
                ("/admin", AliasClosure "admin" "/admin")];
     base := ""; agent := "" |}.

(** One endpoint with PUT bound under [v1], before any alias. *)
Definition bound_v1 : ApiServer string :=
  state_of ((self ← endpoint "query";
             self ← version self "v1";
             handle self "PUT" "first") (emptyApiServer "" "")).

(** The calls that lead to [bound_v1]. *)
Definition bound_v1_script : list (Call string) :=
  [CallEndpoint "query"; CallVersion "query" "v1"; CallHandle "query" "PUT" "first"].

(** The endpoint of [bound_v1], and the three steps of the alias scenario
    on it: declare the alias, select a second version, bind PUT again. *)
Definition bound_v1_api : Api string :=
  {| aliases := ∅;
     versions := {[ "v1" := {| methods := {[ "PUT" := "first" ]} |} ]};
     mainlines := {[ "PUT" := "v1" ]};
     level := PUBLIC; enable := true; name := "query"; main := "v1" |}.

Definition aliased : ApiServer string := state_of (alias "query" "/query" bound_v1).
Definition selected_v2 : ApiServer string := state_of (version "query" "v2" aliased).
Definition bound_v2 : ApiServer string :=
  state_of (handle "query" "PUT" "second" selected_v2).

(** The endpoint stored under [a] in [two_endpoints]. *)
Definition api_a : Api string := declare_alias "/x" (newApi "a").

(** A fresh endpoint on which [version] has not been called. *)
Definition unversioned : ApiServer string :=
  state_of (endpoint "query" (emptyApiServer "" "")).

(** The endpoint of [selected_v2]. *)
Definition selected_v2_api : Api string :=
  select_version "v2" (declare_alias "/query" bound_v1_api).

(** A server with base [api] and an endpoint with two versions. *)
Definition two_versions : ApiServer string :=
  state_of ((self ← endpoint "query";
             self ← version self "v1";
             self ← handle self "PUT" "first";
             version self "v2") (emptyApiServer "api" "")).

Definition two_versions_api : Api string :=
  select_version "v2" bound_v1_api.

(** The endpoint of [query_server] and the calls that lead to it. *)
Definition query_api : Api string :=
  {| aliases := {[ "/query" := {| code := ∅ |} ]};
     versions := {[ "v1" := {| methods := {[ "PUT" := "resolve" ]} |} ]};
     mainlines := {[ "PUT" := "v1" ]};
     level := PUBLIC; enable := true; name := "query"; main := "v1" |}.

Definition query_script : list (Call string) :=
  [CallEndpoint "query"; CallVersion "query" "v1"; CallMock "query" "/query";
   CallHandle "query" "PUT" "resolve"].

(** The calls from [bound_v1] to [bound_v2], and the endpoint of
    [bound_v2]. *)
Definition bound_v2_script : list (Call string) :=
  [CallAlias "query" "/query"; CallVersion "query" "v2";
   CallHandle "query" "PUT" "second"].

Definition bound_v2_api : Api string :=
  bind_handler "PUT" "second" {| methods := ∅ |} selected_v2_api.

(** A later binding of PUT on the server of [NewApiServer], under a second
    version. *)
Definition late_script : list (Call string) :=
  [CallVersion "query" "v2"; CallHandle "query" "PUT" "late"].

Definition late_server : ApiServer string :=
  final_state (run late_script query_server).

(** [bound_v1] after mounting [/query]. *)
Definition mounted : ApiServer string := state_of (mock "query" "/query" bound_v1).

(** [unversioned] after mounting [/q], and after a version and a binding
    that come too late for the alias. *)
Definition mounted_early : ApiServer string :=
  state_of (mock "query" "/q" unversioned).

Definition mounted_early_then_bound : ApiServer string :=
  final_state (run [CallVersion "query" "v1"; CallHandle "query" "GET" "list"]
                 mounted_early).

(** The server of [NewApiServer] after GET is bound under the current
    version. *)
Definition query_with_get : ApiServer string :=
  state_of (handle "query" "GET" "list" query_server).

(** A disabled endpoint. *)
Definition disabled_api : Api string :=
  {| aliases := ∅;
     versions := {[ "v1" := {| methods := {[ "PUT" := "reload" ]} |} ]};
     mainlines := {[ "PUT" := "v1" ]};
     level := PUBLIC; enable := false; name := "admin"; main := "v1" |}.

Definition disabled_server : ApiServer string :=
  {| endpoints := {[ "admin" := disabled_api ]};
     router := [("/v1/admin", ReorderClosure "admin" "v1")];
     base := ""; agent := "" |}.

(** [mounted] after a second [mock] on the same path, which panics. *)
Definition remounted : ApiServer string := state_of (mock "query" "/query" mounted).

End Demo.

(** * Properties *)

Section Properties.

Context {Handler : Type}.

Implicit Types (srv : ApiServer Handler) (api : Api Handler) (r : Request).
Implicit Types (code message path method : string).

(** ** The envelope helper *)

Lemma byte_at_length c rest :
  byte_at (String c rest) (String.length rest) = last_byte (String c rest).
Proof.
  revert c. induction rest as [|c' rest IH]; intros c; [done|].
  cbn [String.length byte_at String.get]. apply IH.
Qed.

Lemma byte_at_last c rest :
  byte_at (String c rest) (String.length (String c rest) - 1)
  = last_byte (String c rest).
Proof.
  replace (String.length (String c rest) - 1) with (String.length rest)
    by (cbn [String.length]; lia).
  apply byte_at_length.
Qed.

Lemma last_byte_is_Some c rest : is_Some (last_byte (String c rest)).
Proof.
  revert c. induction rest as [|c' rest IH]; intros c; [by eexists|].
  apply (IH c').
Qed.

Lemma delimited_nonempty c rest open close :
  delimited (String c rest) open close
  = Some (starts_with open (String c rest) && ends_with close (String c rest)).
Proof.
  unfold delimited. rewrite byte_at_last.
  destruct (last_byte_is_Some c rest) as [l Hl]. rewrite Hl.
  unfold starts_with, ends_with, is_byte. rewrite Hl.
  cbn [byte_at String.get mbind option_bind first_byte].
  repeat case_bool_decide; simplify_eq; done.
Qed.

Lemma delimited_empty open close : delimited "" open close = None.
Proof. reflexivity. Qed.

Lemma pack_nonempty (status : Z) message :
  message ≠ "" →
  @pack Handler status message
  = Wrote (if looks_like_json message
           then envelope_raw status message
           else envelope_quoted status message).
Proof.
  destruct message as [|c rest]; [done|]. intros _.
  unfold pack, looks_like_json. rewrite !delimited_nonempty.
  by repeat destruct (_ && _).
Qed.

Lemma not_found_nonempty what : not_found what ≠ "".
Proof. done. Qed.

Lemma nok_not_found (status : Z) what :
  @nok Handler status (not_found what)
  = Wrote (envelope_quoted status (not_found what)).
Proof. reflexivity. Qed.

(** ** What each configuration call does to the registry *)

Lemma copy_mainlines_id (m : gmap string string) : copy_mainlines m = m.
Proof.
  unfold copy_mainlines.
  apply (map_fold_weak_ind (λ acc m, acc = m)); [done|].
  by intros key val m' acc _ ->.
Qed.

Lemma endpoint_known srv endpoint_name api :
  endpoints srv !! endpoint_name = Some api →
  endpoint endpoint_name srv = Done endpoint_name srv.
Proof. unfold endpoint. by intros ->. Qed.

Lemma endpoint_fresh srv endpoint_name :
  endpoints srv !! endpoint_name = None →
  endpoint endpoint_name srv
  = Done endpoint_name (with_endpoint endpoint_name (newApi endpoint_name) srv).
Proof. unfold endpoint. by intros ->. Qed.

Lemma alias_known srv self api path :
  endpoints srv !! self = Some api →
  is_Some (aliases api !! path) →
  alias self path srv = Panicked (redefine_alias path) srv.
Proof.
  intros Hself Hpath. unfold alias, mbind, cfg_mbind, cfg_bind, deref.
  rewrite Hself. by rewrite decide_True.
Qed.

Lemma alias_fresh srv self api path :
  endpoints srv !! self = Some api →
  aliases api !! path = None →
  alias self path srv
  = Done self (with_route path (AliasClosure self path)
                 (with_endpoint self (declare_alias path api) srv)).
Proof.
  intros Hself Hpath. unfold alias, mbind, cfg_mbind, cfg_bind, deref.
  rewrite Hself, decide_False; [done|].
  rewrite Hpath. by intros [? ?].
Qed.

Lemma alias_dangling srv self path :
  endpoints srv !! self = None →
  alias self path srv = Panicked nil_dereference srv.
Proof.
  intros Hself. unfold alias, mbind, cfg_mbind, cfg_bind, deref. by rewrite Hself.
Qed.

Lemma version_spec srv self api code :
  endpoints srv !! self = Some api →
  version self code srv = Done self (with_endpoint self (select_version code api) srv).
Proof.
  intros Hself. unfold version, mbind, cfg_mbind, cfg_bind, deref. by rewrite Hself.
Qed.

Lemma handle_unset srv self api method (handler : Handler) :
  endpoints srv !! self = Some api →
  main api = "" →
  handle self method handler srv = Panicked version_first srv.
Proof.
  intros Hself Hmain. unfold handle, mbind, cfg_mbind, cfg_bind, deref.
  rewrite Hself, Hmain. done.
Qed.

Lemma handle_missing srv self api method (handler : Handler) :
  endpoints srv !! self = Some api →
  main api ≠ "" →
  versions api !! main api = None →
  handle self method handler srv = Panicked version_missing srv.
Proof.
  intros Hself Hmain Hver. unfold handle, mbind, cfg_mbind, cfg_bind, deref.
  rewrite Hself, Hver. rewrite decide_False; [done|].
  destruct (main api); [done|]. cbn. lia.
Qed.

Lemma handle_bound srv self api ver method (handler : Handler) :
  endpoints srv !! self = Some api →
  main api ≠ "" →
  versions api !! main api = Some ver →
  handle self method handler srv
  = Done self (with_endpoint self (bind_handler method handler ver api) srv).
Proof.
  intros Hself Hmain Hver. unfold handle, mbind, cfg_mbind, cfg_bind, deref.
  rewrite Hself, Hver. rewrite decide_False; [done|].
  destruct (main api); [done|]. cbn. lia.
Qed.

Lemma for_range_HandleFunc {A} (l : list A) (dest : A → string)
    (f : A → Closure) srv :
  for_range l (λ x, HandleFunc (dest x) (f x)) srv
  = Done () (with_routes ((λ x, (dest x, f x)) <$> l) srv).
Proof.
  revert srv. induction l as [|x l IH]; intros srv.
  - cbn. unfold mret, cfg_mret, cfg_ret, with_routes. rewrite app_nil_r.
    by destruct srv.
  - cbn [for_range]. unfold mbind, cfg_mbind, cfg_bind, HandleFunc.
    fold (for_range (Handler:=Handler) (A:=A)).
    rewrite IH. unfold with_routes, with_route. cbn. by rewrite <-app_assoc.
Qed.

(** The registrations of the loop of [Api.mock]. *)
Lemma mock_spec srv self api path :
  endpoints srv !! self = Some api →
  mock self path srv
  = alias self (mock_alias_path (base srv) path)
      (with_routes
         ((λ ver, (mock_dest (base srv) ver path, ReorderClosure (name api) ver))
            <$> (map_to_list (versions api)).*1) srv).
Proof.
  intros Hself. unfold mock, mbind, cfg_mbind, cfg_bind, deref, owner_base.
  rewrite Hself. by rewrite for_range_HandleFunc.
Qed.

(** ** Consistency is an invariant of configuration *)

Lemma newApi_consistent key : api_consistent key (@newApi Handler key).
Proof.
  split; cbn; try done.
Qed.

Lemma select_version_consistent key api code :
  api_consistent key api → api_consistent key (select_version code api).
Proof.
  intros [Hn He Hl Hm Hd Hu Ha]. split; cbn; try done.
  - intros _. destruct (versions api !! code) eqn:Hc; [by rewrite Hc|].
    by rewrite lookup_insert_eq.
  - intros method v Hv. destruct (Hd _ _ Hv) as [Hne (ver & Hver & Hb)].
    split; [done|]. exists ver. split; [|done]. cbn.
    destruct (versions api !! code) eqn:Hc; [done|].
    rewrite lookup_insert_ne; [done|]. by intros ->; simplify_eq.
  - intros ver. destruct (versions api !! code) eqn:Hc; [by apply Hu|].
    destruct (decide (code = "")) as [->|Hne].
    + rewrite lookup_insert_eq. by intros [= <-].
    + rewrite lookup_insert_ne by done. apply Hu.
Qed.

Lemma bind_handler_consistent key api ver method (handler : Handler) :
  main api ≠ "" →
  versions api !! main api = Some ver →
  api_consistent key api →
  api_consistent key (bind_handler method handler ver api).
Proof.
  intros Hmain Hver [Hn He Hl Hm Hd Hu Ha]. split; cbn; try done.
  - intros _. by rewrite lookup_insert_eq.
  - intros m v Hv.
    assert (v ≠ "" ∧ (v = main api ∧ m = method ∨ bound_in api v m)) as [Hne Hcase].
    { destruct (mainlines api !! method) eqn:Hdef.
      - destruct (Hd _ _ Hv). auto.
      - destruct (decide (method = m)) as [->|Hmm].
        + rewrite lookup_insert_eq in Hv. simplify_eq. auto.
        + rewrite lookup_insert_ne in Hv by done. destruct (Hd _ _ Hv). auto. }
    split; [done|]. unfold bound_in. cbn.
    destruct (decide (main api = v)) as [<-|Hvv].
    + rewrite lookup_insert_eq. eexists; split; [done|]. cbn.
      destruct (decide (method = m)) as [->|Hmm]; [by rewrite lookup_insert_eq|].
      rewrite lookup_insert_ne by done.
      destruct Hcase as [[_ ->]|(ver' & Hver' & Hb)]; [done|]. by simplify_eq.
    + rewrite lookup_insert_ne by done.
      destruct Hcase as [[-> _]|Hb]; done.
  - intros ver'. rewrite lookup_insert_ne by done. apply Hu.
  - intros path a Hpath. etrans; [by eapply Ha|].
    destruct (mainlines api !! method) eqn:Hdef; [done|].
    by apply insert_subseteq.
Qed.

Lemma declare_alias_consistent key api path :
  api_consistent key api → api_consistent key (declare_alias path api).
Proof.
  intros [Hn He Hl Hm Hd Hu Ha]. split; cbn; try done.
  intros p a. destruct (decide (path = p)) as [->|Hne].
  - rewrite lookup_insert_eq. intros [= <-]. cbn. by rewrite copy_mainlines_id.
  - rewrite lookup_insert_ne by done. apply Ha.
Qed.

Lemma empty_consistent base_path agent_name :
  registry_consistent (@emptyApiServer Handler base_path agent_name).
Proof.
  split; cbn.
  - intros key api. by rewrite lookup_empty.
  - intros path self p Hin. by apply elem_of_nil in Hin.
  - intros path e c Hin. by apply elem_of_nil in Hin.
Qed.

Lemma with_endpoint_fresh_consistent srv key :
  registry_consistent srv →
  endpoints srv !! key = None →
  registry_consistent (with_endpoint key (newApi key) srv).
Proof.
  intros [He Ha Hd] Hkey. split; cbn.
  - intros k api. destruct (decide (key = k)) as [->|Hne].
    + rewrite lookup_insert_eq. intros [= <-]. apply newApi_consistent.
    + rewrite lookup_insert_ne by done. apply He.
  - intros path self p Hin. destruct (Ha _ _ _ Hin) as (api & Hself & Hp).
    exists api. split; [|done]. rewrite lookup_insert_ne; [done|]. intros ->. by rewrite Hkey in Hself.
  - intros path e c Hin. destruct (Hd _ _ _ Hin) as (api & Hself & Hc).
    exists api. split; [|done]. rewrite lookup_insert_ne; [done|]. intros ->. by rewrite Hkey in Hself.
Qed.

Lemma with_endpoint_consistent srv self api api' :
  registry_consistent srv →
  endpoints srv !! self = Some api →
  api_consistent self api' →
  (∀ p, is_Some (aliases api !! p) → is_Some (aliases api' !! p)) →
  (∀ c, is_Some (versions api !! c) → is_Some (versions api' !! c)) →
  registry_consistent (with_endpoint self api' srv).
Proof.
  intros [He Ha Hd] Hself Hapi' Hal Hve. split; cbn.
  - intros k api0. destruct (decide (self = k)) as [->|Hne].
    + rewrite lookup_insert_eq. by intros [= <-].
    + rewrite lookup_insert_ne by done. apply He.
  - intros path s p Hin. destruct (Ha _ _ _ Hin) as (api0 & Hs & Hp).
    destruct (decide (self = s)) as [->|Hne].
    + exists api'. rewrite lookup_insert_eq. split; [done|]. apply Hal. by simplify_eq.
    + exists api0. by rewrite lookup_insert_ne.
  - intros path e c Hin. destruct (Hd _ _ _ Hin) as (api0 & Hs & Hc).
    destruct (decide (self = e)) as [->|Hne].
    + exists api'. rewrite lookup_insert_eq. split; [done|]. apply Hve. by simplify_eq.
    + exists api0. by rewrite lookup_insert_ne.
Qed.

Lemma with_route_alias_consistent srv self api path :
  registry_consistent srv →
  endpoints srv !! self = Some api →
  is_Some (aliases api !! path) →
  registry_consistent (with_route path (AliasClosure self path) srv).
Proof.
  intros [He Ha Hd] Hself Hpath. split; cbn; [done| |].
  - intros p s q [Hin|Hin%list_elem_of_singleton]%elem_of_app; [eauto|].
    simplify_eq. eauto.
  - intros p e c [Hin|Hin%list_elem_of_singleton]%elem_of_app; [eauto|].
    simplify_eq.
Qed.

Lemma with_routes_direct_consistent srv self api (dest : string → string)
    (vers : list string) :
  registry_consistent srv →
  endpoints srv !! self = Some api →
  (∀ ver, ver ∈ vers → is_Some (versions api !! ver)) →
  registry_consistent
    (with_routes ((λ ver, (dest ver, ReorderClosure self ver)) <$> vers) srv).
Proof.
  intros [He Ha Hd] Hself Hvers. split; cbn; [done| |].
  - intros p s q [Hin|Hin]%elem_of_app; [eauto|].
    apply list_elem_of_fmap in Hin as (ver & Heq & _). simplify_eq.
  - intros p e c [Hin|Hin]%elem_of_app; [eauto|].
    apply list_elem_of_fmap in Hin as (ver & Heq & Hver). simplify_eq. eauto.
Qed.

Lemma version_keys_listed api ver :
  ver ∈ (map_to_list (versions api)).*1 ↔ is_Some (versions api !! ver).
Proof.
  rewrite list_elem_of_fmap. split.
  - intros ([k v] & -> & Hin%elem_of_map_to_list). by eexists.
  - intros [v Hv]. exists (ver, v). split; [done|]. by apply elem_of_map_to_list.
Qed.

Lemma call_consistent c srv self srv' :
  registry_consistent srv → call c srv = Done self srv' → registry_consistent srv'.
Proof.
  intros Hsrv. destruct c as [key|ref code|ref method handler|ref path|ref path]; cbn [call].
  - destruct (endpoints srv !! key) as [api|] eqn:Hkey.
    + rewrite (endpoint_known _ _ _ Hkey). by intros [= _ <-].
    + rewrite (endpoint_fresh _ _ Hkey). intros [= _ <-].
      by apply with_endpoint_fresh_consistent.
  - destruct (endpoints srv !! ref) as [api|] eqn:Href.
    + rewrite (version_spec _ _ _ _ Href). intros [= _ <-].
      pose proof (rc_endpoints Hsrv _ _ Href) as Hapi.
      eapply with_endpoint_consistent; [done|done| | |].
      * by apply select_version_consistent.
      * done.
      * intros c Hc. cbn. destruct (versions api !! code) eqn:Hcode; [done|].
        destruct (decide (code = c)) as [->|]; [by rewrite lookup_insert_eq|].
        by rewrite lookup_insert_ne.
    + unfold version, mbind, cfg_mbind, cfg_bind, deref. by rewrite Href.
  - destruct (endpoints srv !! ref) as [api|] eqn:Href.
    + pose proof (rc_endpoints Hsrv _ _ Href) as Hapi.
      destruct (decide (main api = "")) as [Hmain|Hmain].
      { by rewrite (handle_unset _ _ _ _ _ Href Hmain). }
      destruct (versions api !! main api) as [ver|] eqn:Hver.
      * rewrite (handle_bound _ _ _ _ _ _ Href Hmain Hver). intros [= _ <-].
        eapply with_endpoint_consistent; [done|done| | |].
        -- by apply bind_handler_consistent.
        -- done.
        -- intros c Hc. cbn. destruct (decide (main api = c)) as [->|].
           ++ by rewrite lookup_insert_eq.
           ++ by rewrite lookup_insert_ne.
      * by rewrite (handle_missing _ _ _ _ _ Href Hmain Hver).
    + unfold handle, mbind, cfg_mbind, cfg_bind, deref. by rewrite Href.
  - destruct (endpoints srv !! ref) as [api|] eqn:Href.
    + pose proof (rc_endpoints Hsrv _ _ Href) as Hapi.
      destruct (aliases api !! path) as [a|] eqn:Hpath.
      { by rewrite (alias_known _ _ _ _ Href) by eauto. }
      rewrite (alias_fresh _ _ _ _ Href Hpath). intros [= _ <-].
      eapply with_route_alias_consistent.
      * eapply with_endpoint_consistent; [done|done| | |done].
        -- by apply declare_alias_consistent.
        -- intros p Hp. cbn. destruct (decide (path = p)) as [->|].
           ++ by rewrite lookup_insert_eq.
           ++ by rewrite lookup_insert_ne.
      * cbn. apply lookup_insert_eq.
      * cbn. by rewrite lookup_insert_eq.
    + by rewrite (alias_dangling _ _ _ Href).
  - destruct (endpoints srv !! ref) as [api|] eqn:Href.
    + pose proof (rc_endpoints Hsrv _ _ Href) as Hapi.
      rewrite (mock_spec _ _ _ _ Href). rewrite (ac_name Hapi).
      set (srv1 := with_routes _ srv).
      assert (registry_consistent srv1) as Hsrv1.
      { eapply with_routes_direct_consistent; [done..|].
        intros ver. by rewrite version_keys_listed. }
      assert (endpoints srv1 !! ref = Some api) as Href1 by done.
      destruct (aliases api !! mock_alias_path (base srv) path) as [a|] eqn:Hpath.
      { by rewrite (alias_known _ _ _ _ Href1) by eauto. }
      rewrite (alias_fresh _ _ _ _ Href1 Hpath). intros [= _ <-].
      eapply with_route_alias_consistent.
      * eapply with_endpoint_consistent; [done|done| | |done].
        -- by apply declare_alias_consistent.
        -- intros p Hp. cbn. destruct (decide (mock_alias_path (base srv) path = p)) as [->|].
           ++ by rewrite lookup_insert_eq.
           ++ by rewrite lookup_insert_ne.
      * cbn. apply lookup_insert_eq.
      * cbn. by rewrite lookup_insert_eq.
    + unfold mock, mbind, cfg_mbind, cfg_bind, deref. by rewrite Href.
Qed.

Lemma reachable_consistent srv : reachable srv → registry_consistent srv.
Proof.
  induction 1 as [b a|c srv self srv' _ IH Hcall].
  - apply empty_consistent.
  - by eapply call_consistent.
Qed.

(** ** Dispatch *)

(** The envelope every miss of a route writes. *)
Lemma nok_404 what :
  @nok Handler 404 (not_found what) = Wrote (envelope_quoted 404 (not_found what)).
Proof. apply nok_not_found. Qed.

Lemma isAllowed_public api r :
  enable api = true → level api = PUBLIC → isAllowed api r = ([], true).
Proof. unfold isAllowed. intros -> ->. done. Qed.

Lemma isAllowed_private api r :
  level api = PRIVATE → (isAllowed api r).2 = false.
Proof. unfold isAllowed. intros ->. by destruct (enable api). Qed.

Lemma reorder_outcome srv endpoint code r :
  (reorder srv endpoint code r).2
  = match endpoints srv !! endpoint with
    | None => Wrote (envelope_quoted 404 (not_found endpoint))
    | Some api =>
        match versions api !! code with
        | None => Wrote (envelope_quoted 404 (not_found endpoint))
        | Some ver =>
            match methods ver !! Method r with
            | None => Wrote (envelope_quoted 404 (not_found endpoint))
            | Some handler =>
                if (isAllowed api r).2 then Invoked handler
                else Wrote (envelope_quoted 404 (not_found endpoint))
            end
        end
    end.
Proof.
  unfold reorder. rewrite nok_404.
  repeat case_match; simplify_eq/=; done.
Qed.

Lemma alias_closure_outcome srv self api a path r :
  endpoints srv !! self = Some api →
  aliases api !! path = Some a →
  (alias_closure srv self path r).2
  = match versions api !! default "" (code a !! Method r) with
    | None => Wrote (envelope_quoted 404 (not_found path))
    | Some ver =>
        match methods ver !! Method r with
        | None => Wrote (envelope_quoted 404 (not_found path))
        | Some handler =>
            if (isAllowed api r).2 then Invoked handler
            else Wrote (envelope_quoted 404 (not_found path))
        end
    end.
Proof.
  intros Hself Hpath. unfold alias_closure. rewrite Hself, Hpath, nok_404.
  repeat case_match; simplify_eq/=; done.
Qed.

(** The two texts of [pack], byte for byte: the double quote is the
    character of code 34 and the status is written in decimal. *)
Lemma envelope_raw_text (status : Z) message :
  envelope_raw status message
  = "{" +:+ String "034" "" +:+ "code" +:+ String "034" "" +:+ ": "
        +:+ pretty status +:+ ", "
        +:+ String "034" "" +:+ "data" +:+ String "034" "" +:+ ": "
        +:+ message +:+ "}".
Proof. reflexivity. Qed.

Lemma envelope_quoted_text (status : Z) message :
  envelope_quoted status message
  = "{" +:+ String "034" "" +:+ "code" +:+ String "034" "" +:+ ": "
        +:+ pretty status +:+ ", "
        +:+ String "034" "" +:+ "data" +:+ String "034" "" +:+ ": "
        +:+ String "034" "" +:+ message +:+ String "034" "" +:+ "}".
Proof. reflexivity. Qed.

Lemma not_found_envelope_text what :
  envelope_quoted 404 (not_found what)
  = "{" +:+ String "034" "" +:+ "code" +:+ String "034" "" +:+ ": 404, "
        +:+ String "034" "" +:+ "data" +:+ String "034" "" +:+ ": "
        +:+ String "034" "" +:+ "Not found " +:+ what +:+ String "034" "" +:+ "}".
Proof. vm_compute. reflexivity. Qed.

(** C8: for a message that is not empty, [pack] writes an opening brace,
    the word code between double quotes, a colon, the status in decimal, a
    comma, the word data between double quotes, a colon, the data and a
    closing brace; the data is the message as it stands when the message
    starts with an opening brace and ends with a closing brace, or starts
    with an opening bracket and ends with a closing bracket, and the
    message between two double quotes otherwise.  The double quote is
    written out here as the character of code 34, the decimal form as the
    one of the library. *)
Theorem pack_envelope_formatting (status : Z) message :
  message ≠ "" →
  let q := String "034" "" in
  @pack Handler status message
  = Wrote ("{" +:+ q +:+ "code" +:+ q +:+ ": " +:+ pretty status +:+ ", "
           +:+ q +:+ "data" +:+ q +:+ ": "
           +:+ (if (starts_with "{" message && ends_with "}" message)
                   || (starts_with "[" message && ends_with "]" message)
                then message +:+ "}"
                else q +:+ message +:+ q +:+ "}")).
Proof.
  intros Hne q. rewrite (pack_nonempty _ _ Hne). unfold looks_like_json.
  destruct (_ || _).
  - by rewrite envelope_raw_text.
  - by rewrite envelope_quoted_text.
Qed.

(** C9: [pack] indexes the first byte of the message before anything else,
    so the empty message makes it panic; every other message is written;
    and no closure a configuration registered ends in a panic, the messages
    of the dispatch path being texts that start with the words Not found. *)
Theorem pack_partial_on_empty_message :
  (∀ status : Z, @pack Handler status "" = Crashed index_out_of_range)
  ∧ (∀ (status : Z) message,
       message ≠ "" → ∃ body, @pack Handler status message = Wrote body)
  ∧ (∀ what, not_found what ≠ "")
  ∧ (∀ srv endpoint code r msg,
       (reorder srv endpoint code r).2 ≠ Crashed msg)
  ∧ (∀ srv, reachable srv →
       ∀ path f r msg, (path, f) ∈ router srv → (serve srv f r).2 ≠ Crashed msg).
Proof.
  split_and!.
  - done.
  - intros status message Hne. rewrite (pack_nonempty _ _ Hne). eauto.
  - apply not_found_nonempty.
  - intros srv endpoint code r msg. rewrite reorder_outcome.
    repeat case_match; done.
  - intros srv Hsrv%reachable_consistent path [self p|endpoint code] r msg Hin; cbn [serve].
    + destruct (rc_alias_routes Hsrv _ _ _ Hin) as (api & Hself & [a Ha]).
      rewrite (alias_closure_outcome _ _ _ _ _ _ Hself Ha).
      repeat case_match; done.
    + rewrite reorder_outcome. repeat case_match; done.
Qed.

(** C3: the closure of [reorder] looks up the endpoint, then the version,
    then the handler of the request method, and only then asks the access
    policy; a failure of any of the four stages writes one and the same
    text, the object with code 404 and the data Not found followed by the
    endpoint name between double quotes (the character of code 34), and
    the handler is called exactly when all four succeed. *)
Theorem reorder_uniform_miss srv endpoint code r :
  let q := String "034" "" in
  let miss :=
    Wrote ("{" +:+ q +:+ "code" +:+ q +:+ ": 404, "
           +:+ q +:+ "data" +:+ q +:+ ": "
           +:+ q +:+ "Not found " +:+ endpoint +:+ q +:+ "}") in
  (endpoints srv !! endpoint = None →
     reorder srv endpoint code r = ([], miss))
  ∧ (∀ api, endpoints srv !! endpoint = Some api →
       versions api !! code = None →
       reorder srv endpoint code r = ([], miss))
  ∧ (∀ api ver, endpoints srv !! endpoint = Some api →
       versions api !! code = Some ver →
       methods ver !! Method r = None →
       reorder srv endpoint code r = ([], miss))
  ∧ (∀ api ver handler, endpoints srv !! endpoint = Some api →
       versions api !! code = Some ver →
       methods ver !! Method r = Some handler →
       (isAllowed api r).2 = false →
       reorder srv endpoint code r = ((isAllowed api r).1, miss))
  ∧ (∀ api ver handler, endpoints srv !! endpoint = Some api →
       versions api !! code = Some ver →
       methods ver !! Method r = Some handler →
       (isAllowed api r).2 = true →
       reorder srv endpoint code r = ((isAllowed api r).1, Invoked handler))
  ∧ (∀ handler,
       (reorder srv endpoint code r).2 = Invoked handler ↔
       ∃ api ver, endpoints srv !! endpoint = Some api
                  ∧ versions api !! code = Some ver
                  ∧ methods ver !! Method r = Some handler
                  ∧ (isAllowed api r).2 = true)
  ∧ ((reorder srv endpoint code r).2 = miss
     ∨ ∃ handler, (reorder srv endpoint code r).2 = Invoked handler).
Proof.
  intros q miss.
  assert (@nok Handler 404 (not_found endpoint) = miss) as Hnok.
  { rewrite nok_404. subst miss q. by rewrite not_found_envelope_text. }
  assert (Wrote (envelope_quoted 404 (not_found endpoint)) = miss) as Hmiss.
  { by rewrite <-nok_404. }
  split_and!.
  - unfold reorder. rewrite Hnok. by intros ->.
  - unfold reorder. rewrite Hnok. by intros api -> ->.
  - unfold reorder. rewrite Hnok. by intros api ver -> -> ->.
  - unfold reorder. rewrite Hnok. intros api ver handler -> -> -> Hdeny.
    destruct (isAllowed api r) as [out allowed]. cbn in Hdeny. by subst.
  - unfold reorder. intros api ver handler -> -> -> Hallow.
    destruct (isAllowed api r) as [out allowed]. cbn in Hallow. by subst.
  - intros handler. rewrite reorder_outcome. split.
    + repeat case_match; try done. intros [= ->]. eauto 10.
    + by intros (api & ver & -> & -> & -> & ->).
  - rewrite reorder_outcome, Hmiss. repeat case_match; eauto.
Qed.

(** C4: at level PRIVATE the access policy allows no request at all, so a
    request is allowed only if it is trusted and local, whatever these two
    words are taken to mean; the closure of [reorder] then writes what it
    writes for an endpoint the registry does not know, and the closure of
    an alias writes its own miss. *)
Theorem private_fails_closed srv endpoint api r :
  endpoints srv !! endpoint = Some api →
  level api = PRIVATE →
  (isAllowed api r).2 = false
  ∧ (∀ trusted local : Request → Prop,
       (isAllowed api r).2 = true → trusted r ∧ local r)
  ∧ (∀ code unknown,
       endpoints unknown !! endpoint = None →
       (reorder srv endpoint code r).2 = (reorder unknown endpoint code r).2)
  ∧ (∀ code, (reorder srv endpoint code r).2
             = Wrote (envelope_quoted 404 (not_found endpoint)))
  ∧ (∀ path, is_Some (aliases api !! path) →
       (alias_closure srv endpoint path r).2
       = Wrote (envelope_quoted 404 (not_found path))).
Proof.
  intros Hself Hlevel. pose proof (isAllowed_private api r Hlevel) as Hdeny.
  assert (∀ code, (reorder srv endpoint code r).2
                  = Wrote (envelope_quoted 404 (not_found endpoint))) as Hmiss.
  { intros code. rewrite reorder_outcome, Hself, Hdeny. by repeat case_match. }
  split_and!; [done| |  |done| ].
  - rewrite Hdeny. done.
  - intros code unknown Hunknown. rewrite Hmiss, reorder_outcome. by rewrite Hunknown.
  - intros path [a Ha]. rewrite (alias_closure_outcome _ _ _ _ _ _ Hself Ha), Hdeny.
    by repeat case_match.
Qed.

(** ** One call, seen from one endpoint *)

Lemma with_endpoint_lookup srv self api key :
  endpoints (with_endpoint self api srv) !! key
  = if decide (self = key) then Some api else endpoints srv !! key.
Proof. cbn. apply lookup_insert. Qed.

Lemma call_step c srv ref srv' key api :
  call c srv = Done ref srv' →
  endpoints srv !! key = Some api →
  base srv' = base srv
  ∧ ∃ api', endpoints srv' !! key = Some api' ∧ api_step key (base srv) api c api'.
Proof.
  intros Hcall Hkey.
  destruct c as [name|self code|self method handler|self path|self path];
    cbn [call] in Hcall.
  - destruct (endpoints srv !! name) as [api0|] eqn:Hname.
    + rewrite (endpoint_known _ _ _ Hname) in Hcall. simplify_eq. split; [done|].
      exists api. split; [done|]. by constructor.
    + rewrite (endpoint_fresh _ _ Hname) in Hcall. simplify_eq. split; [done|].
      exists api. split; [|by constructor].
      rewrite with_endpoint_lookup, decide_False; [done|]. by intros ->; simplify_eq.
  - destruct (endpoints srv !! self) as [api0|] eqn:Hself.
    + rewrite (version_spec _ _ _ _ Hself) in Hcall. simplify_eq. split; [done|].
      rewrite with_endpoint_lookup. case_decide; simplify_eq.
      * eexists. split; [done|]. constructor.
      * exists api. split; [done|]. constructor. cbn. congruence.
    + unfold version, mbind, cfg_mbind, cfg_bind, deref in Hcall. by rewrite Hself in Hcall.
  - destruct (endpoints srv !! self) as [api0|] eqn:Hself.
    + destruct (decide (main api0 = "")) as [Hmain|Hmain].
      { by rewrite (handle_unset _ _ _ _ _ Hself Hmain) in Hcall. }
      destruct (versions api0 !! main api0) as [ver|] eqn:Hver.
      * rewrite (handle_bound _ _ _ _ _ _ Hself Hmain Hver) in Hcall. simplify_eq.
        split; [done|]. rewrite with_endpoint_lookup. case_decide; simplify_eq.
        -- eexists. split; [done|]. by constructor.
        -- exists api. split; [done|]. constructor. cbn. congruence.
      * by rewrite (handle_missing _ _ _ _ _ Hself Hmain Hver) in Hcall.
    + unfold handle, mbind, cfg_mbind, cfg_bind, deref in Hcall. by rewrite Hself in Hcall.
  - destruct (endpoints srv !! self) as [api0|] eqn:Hself.
    + destruct (aliases api0 !! path) as [a|] eqn:Hpath.
      { by rewrite (alias_known _ _ _ _ Hself) in Hcall by eauto. }
      rewrite (alias_fresh _ _ _ _ Hself Hpath) in Hcall. simplify_eq.
      split; [done|]. cbn [with_route endpoints]. rewrite with_endpoint_lookup.
      case_decide; simplify_eq.
      * eexists. split; [done|]. by constructor.
      * exists api. split; [done|]. constructor. cbn. congruence.
    + by rewrite (alias_dangling _ _ _ Hself) in Hcall.
  - destruct (endpoints srv !! self) as [api0|] eqn:Hself.
    + rewrite (mock_spec _ _ _ _ Hself) in Hcall.
      set (srv1 := with_routes _ srv) in Hcall.
      assert (endpoints srv1 !! self = Some api0) as Hself1 by done.
      destruct (aliases api0 !! mock_alias_path (base srv) path) as [a|] eqn:Hpath.
      { by rewrite (alias_known _ _ _ _ Hself1) in Hcall by eauto. }
      rewrite (alias_fresh _ _ _ _ Hself1 Hpath) in Hcall. clear Hself1.
      simplify_eq. split; [done|].
      cbn [with_route endpoints]. rewrite with_endpoint_lookup.
      cbn [with_routes endpoints srv1]. case_decide; simplify_eq.
      * eexists. split; [done|]. by constructor.
      * exists api. split; [done|]. constructor. cbn. congruence.
    + unfold mock, mbind, cfg_mbind, cfg_bind, deref in Hcall. by rewrite Hself in Hcall.
Qed.

Lemma step_mainlines_stable key b api c api' method v :
  api_step key b api c api' →
  mainlines api !! method = Some v → mainlines api' !! method = Some v.
Proof.
  intros Hstep Hv. destruct Hstep as [| |m h ver Hmain Hver| |]; cbn; try done.
  destruct (mainlines api !! m) eqn:Hm; [done|].
  rewrite lookup_insert_ne; [done|]. by intros ->; simplify_eq.
Qed.

Lemma step_alias_frozen key b api c api' path a :
  api_step key b api c api' →
  aliases api !! path = Some a → aliases api' !! path = Some a.
Proof.
  intros Hstep Ha. destruct Hstep as [| | |p Hp|p Hp]; cbn; try done.
  - rewrite lookup_insert_ne; [done|]. congruence.
  - rewrite lookup_insert_ne; [done|]. congruence.
Qed.

Lemma step_main key b api c api' :
  api_step key b api c api' →
  main api' = main api ∨ c = CallVersion key (main api').
Proof. intros Hstep. destruct Hstep; cbn; auto. Qed.

Lemma step_binding_elsewhere key b api c api' v :
  api_step key b api c api' →
  v ≠ main api →
  (∀ code, c ≠ CallVersion key code) →
  versions api' !! v = versions api !! v.
Proof.
  intros Hstep Hv Hc. destruct Hstep as [|code|m h ver Hmain Hver| |]; cbn; try done.
  - by destruct (Hc code).
  - by rewrite lookup_insert_ne.
Qed.

(** A property of one endpoint that every step keeps is kept by every
    script that completes. *)
Lemma run_preserves (P : Api Handler → Prop) key :
  (∀ b api c api', api_step key b api c api' → P api → P api') →
  ∀ cs srv srv' api,
    run cs srv = Done () srv' →
    endpoints srv !! key = Some api → P api →
    ∃ api', endpoints srv' !! key = Some api' ∧ P api'.
Proof.
  intros Hkeep cs. induction cs as [|c cs IH]; intros srv srv' api Hrun Hkey HP.
  - cbn in Hrun. unfold mret, cfg_mret, cfg_ret in Hrun. simplify_eq. eauto.
  - cbn [run] in Hrun. unfold mbind, cfg_mbind, cfg_bind in Hrun.
    destruct (call c srv) as [ref srv1|msg srv1] eqn:Hcall; [|done].
    destruct (call_step _ _ _ _ _ _ Hcall Hkey) as (_ & api1 & Hkey1 & Hstep).
    eapply IH; [done..|]. by eapply Hkeep.
Qed.

Lemma run_mainlines_stable cs srv srv' key api method v :
  run cs srv = Done () srv' →
  endpoints srv !! key = Some api →
  mainlines api !! method = Some v →
  ∃ api', endpoints srv' !! key = Some api' ∧ mainlines api' !! method = Some v.
Proof.
  intros Hrun Hkey Hv.
  eapply (run_preserves (λ api, mainlines api !! method = Some v)); [|done..].
  intros b api0 c api' Hstep. by eapply step_mainlines_stable.
Qed.

Lemma run_alias_frozen cs srv srv' key api path a :
  run cs srv = Done () srv' →
  endpoints srv !! key = Some api →
  aliases api !! path = Some a →
  ∃ api', endpoints srv' !! key = Some api' ∧ aliases api' !! path = Some a.
Proof.
  intros Hrun Hkey Ha.
  eapply (run_preserves (λ api, aliases api !! path = Some a)); [|done..].
  intros b api0 c api' Hstep. by eapply step_alias_frozen.
Qed.

(** ** Configuration errors and bookkeeping *)

(** C5: on an endpoint whose current version is unset, [handle] panics
    and leaves the registry as it was; when [handle] completes, a current
    version was set and exists; after [version] with a key that is not
    empty, [handle] completes and stores the handler under that key; and
    the current version of an endpoint changes through [version] only. *)
Theorem version_precedes_handle srv self api method (handler : Handler) :
  endpoints srv !! self = Some api →
  (main api = "" →
     handle self method handler srv = Panicked version_first srv)
  ∧ (∀ ref srv', handle self method handler srv = Done ref srv' →
       main api ≠ "" ∧ is_Some (versions api !! main api))
  ∧ (∀ code, code ≠ "" →
       ∃ srv1 srv2 api2 ver2,
         version self code srv = Done self srv1
         ∧ handle self method handler srv1 = Done self srv2
         ∧ endpoints srv2 !! self = Some api2
         ∧ versions api2 !! code = Some ver2
         ∧ methods ver2 !! method = Some handler)
  ∧ (∀ c ref srv' api', call c srv = Done ref srv' →
       endpoints srv' !! self = Some api' →
       main api' ≠ main api → c = CallVersion self (main api')).
Proof.
  intros Hself. split_and!.
  - by apply handle_unset.
  - intros ref srv' Hdone.
    destruct (decide (main api = "")) as [Hmain|Hmain].
    { by rewrite (handle_unset _ _ _ _ _ Hself Hmain) in Hdone. }
    split; [done|]. destruct (versions api !! main api) eqn:Hver; [done|].
    by rewrite (handle_missing _ _ _ _ _ Hself Hmain Hver) in Hdone.
  - intros code Hcode.
    set (api1 := select_version code api).
    assert (∃ ver1, versions api1 !! code = Some ver1) as [ver1 Hver1].
    { subst api1. cbn. destruct (versions api !! code) eqn:Hc; [by eauto|].
      rewrite lookup_insert_eq. eauto. }
    eexists _, _, _, _. split_and!.
    + by apply version_spec.
    + apply (handle_bound _ _ api1 ver1); [|done..]. cbn. apply lookup_insert_eq.
    + cbn. apply lookup_insert_eq.
    + cbn. apply lookup_insert_eq.
    + cbn. apply lookup_insert_eq.
  - intros c ref srv' api' Hcall Hself' Hmain.
    destruct (call_step _ _ _ _ _ _ Hcall Hself) as (_ & api1 & Hself1 & Hstep).
    simplify_eq. by destruct (step_main _ _ _ _ _ Hstep).
Qed.

(** C6: when [handle] completes, a method without a default version gets
    the current version as its default, a method that has one keeps it,
    no version other than the current one changes, the handler is stored
    under the current version, and no script of later calls changes the
    default of the method again. *)
Theorem default_version_bookkeeping srv self api method (handler : Handler) ref srv' :
  endpoints srv !! self = Some api →
  handle self method handler srv = Done ref srv' →
  ∃ api',
    endpoints srv' !! self = Some api'
    ∧ (mainlines api !! method = None →
         mainlines api' !! method = Some (main api))
    ∧ (∀ v, mainlines api !! method = Some v →
         mainlines api' !! method = Some v)
    ∧ (∀ other, other ≠ method →
         mainlines api' !! other = mainlines api !! other)
    ∧ (∀ v2, v2 ≠ main api → versions api' !! v2 = versions api !! v2)
    ∧ (∃ ver', versions api' !! main api = Some ver'
               ∧ methods ver' !! method = Some handler)
    ∧ (∀ cs srv'' v,
         run cs srv' = Done () srv'' →
         mainlines api' !! method = Some v →
         ∃ api'', endpoints srv'' !! self = Some api''
                  ∧ mainlines api'' !! method = Some v).
Proof.
  intros Hself Hdone.
  destruct (decide (main api = "")) as [Hmain|Hmain].
  { by rewrite (handle_unset _ _ _ _ _ Hself Hmain) in Hdone. }
  destruct (versions api !! main api) as [ver|] eqn:Hver.
  2: { by rewrite (handle_missing _ _ _ _ _ Hself Hmain Hver) in Hdone. }
  rewrite (handle_bound _ _ _ _ _ _ Hself Hmain Hver) in Hdone. simplify_eq.
  exists (bind_handler method handler ver api).
  assert (endpoints (with_endpoint ref (bind_handler method handler ver api) srv)
            !! ref = Some (bind_handler method handler ver api)) as Hself'.
  { cbn. apply lookup_insert_eq. }
  split_and!; [done|..].
  - intros Hnone. cbn. rewrite Hnone. apply lookup_insert_eq.
  - intros v Hv. cbn. by rewrite Hv.
  - intros other Hother. cbn. destruct (mainlines api !! method); [done|].
    by rewrite lookup_insert_ne.
  - intros v2 Hv2. cbn. by rewrite lookup_insert_ne.
  - eexists. cbn. rewrite lookup_insert_eq. split; [done|]. cbn. apply lookup_insert_eq.
  - intros cs srv'' v Hrun Hv. by eapply run_mainlines_stable.
Qed.

(** C10: the first reference to a name creates an endpoint that is
    enabled, at level PUBLIC, with no current version and empty maps of
    versions, aliases and default versions, which the access policy lets
    every request reach; a reference to a known name returns the same
    endpoint and changes nothing. *)
Theorem fresh_endpoint_defaults srv endpoint_name :
  endpoints srv !! endpoint_name = None →
  ∃ srv' api,
    endpoint endpoint_name srv = Done endpoint_name srv'
    ∧ endpoints srv' !! endpoint_name = Some api
    ∧ enable api = true ∧ level api = PUBLIC ∧ main api = ""
    ∧ versions api = ∅ ∧ aliases api = ∅ ∧ mainlines api = ∅
    ∧ name api = endpoint_name
    ∧ (∀ r, isAllowed api r = ([], true))
    ∧ (∀ key, key ≠ endpoint_name → endpoints srv' !! key = endpoints srv !! key)
    ∧ router srv' = router srv
    ∧ endpoint endpoint_name srv' = Done endpoint_name srv'
    ∧ (∀ srv2 api2, endpoints srv2 !! endpoint_name = Some api2 →
         endpoint endpoint_name srv2 = Done endpoint_name srv2).
Proof.
  intros Hfresh.
  exists (with_endpoint endpoint_name (newApi endpoint_name) srv), (newApi endpoint_name).
  assert (endpoints (with_endpoint endpoint_name (newApi endpoint_name) srv)
            !! endpoint_name = Some (newApi endpoint_name)) as Hnew.
  { cbn. apply lookup_insert_eq. }
  split_and!; try done.
  - by apply endpoint_fresh.
  - intros key Hkey. cbn. by rewrite lookup_insert_ne.
  - by eapply endpoint_known.
  - intros srv2 api2. apply endpoint_known.
Qed.

(** C2, as the code has it: declaring an alias whose path is already an
    alias of the same endpoint panics with the message of a redefined
    alias and leaves the registry as it was; a path that is not an alias
    of this endpoint is accepted, whatever the other endpoints hold. *)
Theorem alias_unique_per_endpoint srv self api path :
  endpoints srv !! self = Some api →
  (is_Some (aliases api !! path) →
     alias self path srv = Panicked (redefine_alias path) srv)
  ∧ (aliases api !! path = None →
       ∃ srv' api',
         alias self path srv = Done self srv'
         ∧ endpoints srv' !! self = Some api'
         ∧ is_Some (aliases api' !! path)
         ∧ router srv' = (router srv ++ [(path, AliasClosure self path)])%list).
Proof.
  intros Hself. split.
  - by apply alias_known.
  - intros Hpath. eexists _, _. split_and!.
    + by apply alias_fresh.
    + cbn. apply lookup_insert_eq.
    + cbn. by rewrite lookup_insert_eq.
    + done.
Qed.

(** ** Mounting *)

Lemma append_nil (s : string) : "" +:+ s = s.
Proof. reflexivity. Qed.

Lemma append_cons c (s1 s2 : string) : String c s1 +:+ s2 = String c (s1 +:+ s2).
Proof. reflexivity. Qed.

Lemma length_append (s1 s2 : string) :
  String.length (s1 +:+ s2) = String.length s1 + String.length s2.
Proof.
  induction s1 as [|c s1 IH]; [done|].
  rewrite append_cons. cbn [String.length]. by rewrite IH.
Qed.

Lemma append_inj_r (t s1 s2 : string) : s1 +:+ t = s2 +:+ t → s1 = s2.
Proof.
  revert s2. induction s1 as [|c s1 IH]; intros [|c' s2] Heq.
  - done.
  - apply (f_equal String.length) in Heq.
    rewrite !length_append in Heq. cbn [String.length] in Heq. lia.
  - apply (f_equal String.length) in Heq.
    rewrite !length_append in Heq. cbn [String.length] in Heq. lia.
  - rewrite !append_cons in Heq. simplify_eq. f_equal. by apply IH.
Qed.

(** The paths of the source are the paths the specification names. *)
Lemma mock_dest_spec b ver path :
  mock_dest b ver path = spec_versioned_path b ver path.
Proof. unfold mock_dest, spec_versioned_path, basePath. by case_decide. Qed.

Lemma mock_alias_path_spec b path :
  mock_alias_path b path = spec_alias_path b path.
Proof. unfold mock_alias_path, spec_alias_path, basePath. by case_decide. Qed.

Lemma spec_versioned_path_inj b path :
  Inj (=) (=) (λ ver, spec_versioned_path b ver path).
Proof.
  intros v1 v2 Heq. unfold spec_versioned_path in Heq.
  apply (inj (String.app _)) in Heq. apply (inj (String.app _)) in Heq.
  by apply append_inj_r in Heq.
Qed.

(** C7: [mock] registers, for every version key of the endpoint, one
    route whose path is the base path, a slash, the key and the suffix,
    bound to the closure of [reorder] for that key; the paths are pairwise
    distinct and there are as many as versions; then it declares the alias
    made of the base path and the suffix, whose [code] map is the map of
    default versions at that moment. *)
Theorem mock_mounts_versioned_paths srv self api path :
  endpoints srv !! self = Some api →
  let routes :=
    (λ ver, (spec_versioned_path (base srv) ver path, ReorderClosure (name api) ver))
      <$> (map_to_list (versions api)).*1 in
  let alias_path := spec_alias_path (base srv) path in
  NoDup routes.*1
  ∧ length routes = size (versions api)
  ∧ (∀ dest f, (dest, f) ∈ routes ↔
       ∃ ver, is_Some (versions api !! ver)
              ∧ dest = spec_versioned_path (base srv) ver path
              ∧ f = ReorderClosure (name api) ver)
  ∧ (reachable srv → name api = self)
  ∧ mock self path srv = alias self alias_path (with_routes routes srv)
  ∧ (is_Some (aliases api !! alias_path) →
       mock self path srv
       = Panicked (redefine_alias alias_path) (with_routes routes srv))
  ∧ (aliases api !! alias_path = None →
       ∃ srv' api' a,
         mock self path srv = Done self srv'
         ∧ router srv'
           = (router srv ++ routes ++ [(alias_path, AliasClosure self alias_path)])%list
         ∧ endpoints srv' !! self = Some api'
         ∧ aliases api' !! alias_path = Some a
         ∧ code a = mainlines api
         ∧ versions api' = versions api
         ∧ mainlines api' = mainlines api).
Proof.
  intros Hself routes alias_path.
  assert (mock self path srv = alias self alias_path (with_routes routes srv)) as Hmock.
  { rewrite (mock_spec _ _ _ _ Hself). subst routes alias_path.
    rewrite mock_alias_path_spec. do 2 f_equal.
    apply list_fmap_ext. intros _ ver _. by rewrite mock_dest_spec. }
  assert (endpoints (with_routes routes srv) !! self = Some api) as Hself1 by done.
  split_and!.
  - subst routes. rewrite <-list_fmap_compose.
    apply (NoDup_fmap_2 (λ ver, spec_versioned_path (base srv) ver path)
             (Inj0:=spec_versioned_path_inj _ _)).
    apply NoDup_fst_map_to_list.
  - subst routes. by rewrite !length_fmap, length_map_to_list.
  - intros dest f. subst routes. rewrite list_elem_of_fmap. split.
    + intros (ver & [= -> ->] & Hver%version_keys_listed). eauto.
    + intros (ver & Hver%version_keys_listed & -> & ->). eauto.
  - intros Hsrv%reachable_consistent. exact (ac_name (rc_endpoints Hsrv _ _ Hself)).
  - done.
  - intros Hknown. rewrite Hmock. by apply (alias_known _ _ api).
  - intros Hfresh. eexists _, _, _. split_and!.
    + rewrite Hmock. by apply (alias_fresh _ _ api).
    + cbn. by rewrite <-app_assoc.
    + cbn. apply lookup_insert_eq.
    + cbn. apply lookup_insert_eq.
    + cbn. apply copy_mainlines_id.
    + done.
    + done.
Qed.

(** ** Aliases pin the defaults of their declaration *)

(** C1: let method [M] default to version [V1] on an endpoint when the
    alias [A] is declared, and let [M] then be bound to [h2] under a newly
    selected version [V2].  The alias still holds the map of defaults of
    its declaration, and no later call changes it, not even one that
    really adds a default to the live map of the endpoint; a request
    with method [M] through the alias calls the handler stored under [V1],
    the one that was there before; the same request through the closure of
    [reorder] for [V2] calls [h2]. *)
Theorem alias_snapshot_immutability srv self api A M V1 V2 (h2 : Handler)
    srv1 srv2 srv3 r :
  reachable srv →
  endpoints srv !! self = Some api →
  mainlines api !! M = Some V1 →
  alias self A srv = Done self srv1 →
  V2 ≠ V1 →
  version self V2 srv1 = Done self srv2 →
  handle self M h2 srv2 = Done self srv3 →
  Method r = M →
  ∃ api3 a ver1 h1,
    endpoints srv3 !! self = Some api3
    ∧ aliases api3 !! A = Some a
    ∧ code a = mainlines api
    ∧ versions api !! V1 = Some ver1
    ∧ versions api3 !! V1 = Some ver1
    ∧ methods ver1 !! M = Some h1
    ∧ (A, AliasClosure self A) ∈ router srv3
    ∧ serve srv3 (AliasClosure self A) r = ([], Invoked h1)
    ∧ serve srv3 (ReorderClosure self V2) r = ([], Invoked h2)
    ∧ mainlines api3 = mainlines api
    ∧ (∀ M' (h' : Handler) srv4,
         mainlines api !! M' = None →
         handle self M' h' srv3 = Done self srv4 →
         ∃ api4, endpoints srv4 !! self = Some api4
                 ∧ mainlines api4 !! M' = Some V2
                 ∧ aliases api4 !! A = Some a
                 ∧ code a !! M' = None)
    ∧ (∀ cs srv4, run cs srv3 = Done () srv4 →
         ∃ api4, endpoints srv4 !! self = Some api4
                 ∧ aliases api4 !! A = Some a).
Proof.
  intros Hsrv%reachable_consistent Hself HM Halias HV Hversion Hhandle Hr.
  pose proof (rc_endpoints Hsrv _ _ Hself) as Hapi.
  destruct (ac_default Hapi _ _ HM) as [HV1 (ver1 & Hver1 & [h1 Hh1])].
  (* the three calls, one after the other *)
  destruct (aliases api !! A) as [a0|] eqn:HA.
  { by rewrite (alias_known _ _ _ _ Hself) in Halias by eauto. }
  rewrite (alias_fresh _ _ _ _ Hself HA) in Halias. simplify_eq.
  set (api1 := declare_alias A api) in *.
  set (srv1 := with_route A _ (with_endpoint self api1 srv)) in *.
  assert (endpoints srv1 !! self = Some api1) as Hself1.
  { cbn. apply lookup_insert_eq. }
  rewrite (version_spec _ _ _ _ Hself1) in Hversion. simplify_eq.
  set (api2 := select_version V2 api1) in *.
  set (srv2 := with_endpoint self api2 srv1) in *.
  assert (endpoints srv2 !! self = Some api2) as Hself2.
  { cbn. apply lookup_insert_eq. }
  destruct (decide (main api2 = "")) as [Hmain|Hmain].
  { by rewrite (handle_unset _ _ _ _ _ Hself2 Hmain) in Hhandle. }
  destruct (versions api2 !! main api2) as [ver2|] eqn:Hver2.
  2: { by rewrite (handle_missing _ _ _ _ _ Hself2 Hmain Hver2) in Hhandle. }
  rewrite (handle_bound _ _ _ _ _ _ Hself2 Hmain Hver2) in Hhandle. simplify_eq.
  set (api3 := bind_handler (Method r) h2 ver2 api2) in *.
  (* what the endpoint holds in the end *)
  assert (aliases api3 !! A = Some {| code := copy_mainlines (mainlines api) |}) as HA3.
  { cbn. apply lookup_insert_eq. }
  assert (versions api3 !! V1 = Some ver1) as Hver13.
  { cbn. rewrite lookup_insert_ne by done.
    destruct (versions api !! V2) eqn:HV2; [done|]. by rewrite lookup_insert_ne. }
  assert (versions api3 !! V2 = Some {| methods := <[Method r := h2]> (methods ver2) |})
    as Hver23.
  { cbn. apply lookup_insert_eq. }
  assert (∀ req, isAllowed api3 req = ([], true)) as Hallowed.
  { intros req. apply isAllowed_public; [exact (ac_enable Hapi)|exact (ac_level Hapi)]. }
  assert (endpoints (with_endpoint self api3 srv2) !! self = Some api3) as Hself3.
  { cbn. apply lookup_insert_eq. }
  exists api3, {| code := copy_mainlines (mainlines api) |}, ver1, h1.
  split_and!; try done.
  - cbn. apply copy_mainlines_id.
  - cbn. apply elem_of_app. right. by apply list_elem_of_singleton.
  - cbn [serve]. unfold alias_closure. rewrite Hself3, HA3.
    cbn [code]. rewrite copy_mainlines_id, HM.
    change (default "" (Some V1)) with V1.
    rewrite Hver13, Hh1, Hallowed. done.
  - cbn [serve]. unfold reorder. rewrite Hself3, Hver23.
    cbn [methods]. rewrite lookup_insert_eq, Hallowed. done.
  - cbn. by rewrite HM.
  - intros M' h' srv4 HM' Hhandle.
    assert (main api3 ≠ "") as Hmain3 by done.
    rewrite (handle_bound _ _ _ _ _ _ Hself3 Hmain3 Hver23) in Hhandle. simplify_eq.
    eexists. split_and!.
    + cbn. apply lookup_insert_eq.
    + cbn. rewrite HM, HM'. apply lookup_insert_eq.
    + cbn. apply lookup_insert_eq.
    + cbn. by rewrite copy_mainlines_id.
  - intros cs srv4 Hrun. by eapply run_alias_frozen.
Qed.

(** * Further properties of the package *)

(** ** Every call follows one of the rules of [call_result] *)

Lemma version_dangling srv self code :
  endpoints srv !! self = None →
  version self code srv = Panicked nil_dereference srv.
Proof.
  intros Hself. unfold version, mbind, cfg_mbind, cfg_bind, deref. by rewrite Hself.
Qed.

Lemma handle_dangling srv self method (handler : Handler) :
  endpoints srv !! self = None →
  handle self method handler srv = Panicked nil_dereference srv.
Proof.
  intros Hself. unfold handle, mbind, cfg_mbind, cfg_bind, deref. by rewrite Hself.
Qed.

Lemma mock_dangling srv self path :
  endpoints srv !! self = None →
  mock self path srv = Panicked nil_dereference srv.
Proof.
  intros Hself. unfold mock, mbind, cfg_mbind, cfg_bind, deref. by rewrite Hself.
Qed.

Lemma call_spec c srv : call_result srv c (call c srv).
Proof.
  destruct c as [key|self code|self method handler|self path|self path]; cbn [call].
  - destruct (endpoints srv !! key) as [api|] eqn:Hkey.
    + rewrite (endpoint_known _ _ _ Hkey). by econstructor.
    + rewrite (endpoint_fresh _ _ Hkey). by constructor.
  - destruct (endpoints srv !! self) as [api|] eqn:Hself.
    + rewrite (version_spec _ _ _ _ Hself). by constructor.
    + rewrite (version_dangling _ _ _ Hself). by eapply result_dangling.
  - destruct (endpoints srv !! self) as [api|] eqn:Hself.
    + destruct (decide (main api = "")) as [Hmain|Hmain].
      { rewrite (handle_unset _ _ _ _ _ Hself Hmain). by econstructor. }
      destruct (versions api !! main api) as [ver|] eqn:Hver.
      * rewrite (handle_bound _ _ _ _ _ _ Hself Hmain Hver). by constructor.
      * rewrite (handle_missing _ _ _ _ _ Hself Hmain Hver). by econstructor.
    + rewrite (handle_dangling _ _ _ _ Hself). by eapply result_dangling.
  - destruct (endpoints srv !! self) as [api|] eqn:Hself.
    + destruct (aliases api !! path) as [a|] eqn:Hpath.
      * rewrite (alias_known _ _ _ _ Hself) by eauto. econstructor; eauto.
      * rewrite (alias_fresh _ _ _ _ Hself Hpath). by constructor.
    + rewrite (alias_dangling _ _ _ Hself). by eapply result_dangling.
  - destruct (endpoints srv !! self) as [api|] eqn:Hself.
    + rewrite (mock_spec _ _ _ _ Hself). fold (mock_routes (base srv) api path).
      set (srv1 := with_routes _ srv).
      assert (endpoints srv1 !! self = Some api) as Hself1 by done.
      destruct (aliases api !! mock_alias_path (base srv) path) as [a|] eqn:Hpath.
      * rewrite (alias_known _ _ _ _ Hself1) by eauto.
        apply (result_mock_known srv self path api); eauto.
      * rewrite (alias_fresh _ _ _ _ Hself1 Hpath).
        by apply (result_mock_fresh srv self path api).
    + rewrite (mock_dangling _ _ _ Hself). by eapply result_dangling.
Qed.

End Properties.

(** * The properties at concrete registries *)

Lemma run_reachable {Handler} (cs : list (Call Handler)) srv srv' :
  reachable srv → run cs srv = Done () srv' → reachable srv'.
Proof.
  revert srv. induction cs as [|c cs IH]; intros srv Hsrv Hrun.
  - cbn in Hrun. unfold mret, cfg_mret, cfg_ret in Hrun. by simplify_eq.
  - cbn [run] in Hrun. unfold mbind, cfg_mbind, cfg_bind in Hrun.
    destruct (call c srv) as [ref srv1|msg srv1] eqn:Hcall; [|done].
    eapply IH; [|done]. by eapply reachable_call.
Qed.

Lemma bound_v1_reachable : reachable Demo.bound_v1.
Proof.
  apply (run_reachable Demo.bound_v1_script (emptyApiServer "" "")).
  - constructor.
  - vm_compute. reflexivity.
Qed.

(** The server of [NewApiServer] mounts before it binds: the alias it
    declares holds no default for PUT, while the versioned path reaches the
    handler. *)
Example NewApiServer_routes :
  GetMuxer Demo.query_server
  = [("/v1/query", ReorderClosure "query" "v1");
     ("/query", AliasClosure "query" "/query")].
Proof. vm_compute. reflexivity. Qed.

Example NewApiServer_direct_put :
  serve Demo.query_server (ReorderClosure "query" "v1") Demo.put
  = ([], Invoked "resolve").
Proof. vm_compute. reflexivity. Qed.

Example NewApiServer_alias_put :
  serve Demo.query_server (AliasClosure "query" "/query") Demo.put
  = ([], Wrote (envelope_quoted 404 "Not found /query")).
Proof. vm_compute. reflexivity. Qed.

Example NewApiServer_direct_get :
  serve Demo.query_server (ReorderClosure "query" "v1") Demo.get
  = ([], Wrote (envelope_quoted 404 "Not found query")).
Proof. vm_compute. reflexivity. Qed.

Example pack_pong :
  let q := String "034" "" in
  @ok string "pong"
  = Wrote ("{" +:+ q +:+ "code" +:+ q +:+ ": 200, "
           +:+ q +:+ "data" +:+ q +:+ ": " +:+ q +:+ "pong" +:+ q +:+ "}").
Proof. vm_compute. reflexivity. Qed.

Example pack_array :
  let q := String "034" "" in
  @ok string "[1, 2]"
  = Wrote ("{" +:+ q +:+ "code" +:+ q +:+ ": 200, "
           +:+ q +:+ "data" +:+ q +:+ ": [1, 2]}").
Proof. vm_compute. reflexivity. Qed.

Example pack_mismatched :
  let q := String "034" "" in
  @ok string "{1, 2]"
  = Wrote ("{" +:+ q +:+ "code" +:+ q +:+ ": 200, "
           +:+ q +:+ "data" +:+ q +:+ ": " +:+ q +:+ "{1, 2]" +:+ q +:+ "}").
Proof. vm_compute. reflexivity. Qed.

(** The bytes of an envelope, as numbers. *)
Example pack_pong_bytes :
  match @ok string "pong" with
  | Wrote body => nat_of_ascii <$> String.list_ascii_of_string body
  | _ => []
  end
  = [123; 34; 99; 111; 100; 101; 34; 58; 32; 50; 48; 48; 44; 32;
     34; 100; 97; 116; 97; 34; 58; 32; 34; 112; 111; 110; 103; 34; 125].
Proof. vm_compute. reflexivity. Qed.

(** C1 at the registry [Demo.bound_v1], alias [/query], versions [v1] and
    [v2]: the alias calls the first handler, the path of [v2] the second. *)
Lemma alias_snapshot_immutability_witness :
  serve Demo.bound_v2 (AliasClosure "query" "/query") Demo.put = ([], Invoked "first")
  ∧ serve Demo.bound_v2 (ReorderClosure "query" "v2") Demo.put = ([], Invoked "second").
Proof.
  destruct (alias_snapshot_immutability Demo.bound_v1 "query" Demo.bound_v1_api
              "/query" "PUT" "v1" "v2" "second"
              Demo.aliased Demo.selected_v2 Demo.bound_v2 Demo.put)
    as (api3 & a & ver1 & h1 & _ & _ & _ & Hver1 & _ & Hh1 & _ & Halias & Hdirect & _).
  - exact bound_v1_reachable.
  - vm_compute. reflexivity.
  - vm_compute. reflexivity.
  - vm_compute. reflexivity.
  - discriminate.
  - vm_compute. reflexivity.
  - vm_compute. reflexivity.
  - reflexivity.
  - vm_compute in Hver1. injection Hver1 as <-.
    vm_compute in Hh1. injection Hh1 as <-.
    split; [exact Halias|exact Hdirect].
Defined.

(** C2 as the specification words it fails: the path [/x] is an alias of
    endpoint [a], and declaring it through endpoint [b] completes and
    leaves both endpoints with that alias. *)
Lemma alias_shared_across_endpoints :
  (∃ api, endpoints Demo.two_endpoints !! "a" = Some api
          ∧ is_Some (aliases api !! "/x"))
  ∧ (∃ srv' api_a api_b,
       alias "b" "/x" Demo.two_endpoints = Done "b" srv'
       ∧ endpoints srv' !! "a" = Some api_a ∧ is_Some (aliases api_a !! "/x")
       ∧ endpoints srv' !! "b" = Some api_b ∧ is_Some (aliases api_b !! "/x"))
  ∧ ¬ spec_alias_unique Demo.two_endpoints.
Proof.
  split_and!.
  - exists Demo.api_a. split; [vm_compute; reflexivity|vm_compute; eauto].
  - eexists _, _, _. split_and!.
    + vm_compute. reflexivity.
    + vm_compute. reflexivity.
    + vm_compute. eauto.
    + vm_compute. reflexivity.
    + vm_compute. eauto.
  - intros Hunique.
    destruct (Hunique "b" "a" Demo.api_a "/x") as [srv' Hpanic].
    + vm_compute. reflexivity.
    + vm_compute. eauto.
    + vm_compute. eauto.
    + vm_compute in Hpanic. discriminate.
Qed.

(** C2 as amended, at endpoint [a] of [Demo.two_endpoints]: the second
    declaration of [/x] through [a] panics. *)
Lemma alias_unique_per_endpoint_witness :
  alias "a" "/x" Demo.two_endpoints = Panicked (redefine_alias "/x") Demo.two_endpoints.
Proof.
  apply (alias_unique_per_endpoint Demo.two_endpoints "a" Demo.api_a "/x").
  - vm_compute. reflexivity.
  - vm_compute. eauto.
Defined.

(** C3 at the server of [NewApiServer]: an unbound method and an unknown
    version write the same text, given here byte by byte as well, and PUT
    reaches the handler. *)
Lemma reorder_uniform_miss_witness :
  let q := String "034" "" in
  let miss :=
    Wrote ("{" +:+ q +:+ "code" +:+ q +:+ ": 404, "
           +:+ q +:+ "data" +:+ q +:+ ": " +:+ q +:+ "Not found query" +:+ q +:+ "}") in
  reorder Demo.query_server "query" "v1" Demo.get = ([], miss)
  ∧ reorder Demo.query_server "query" "v2" Demo.put = ([], miss)
  ∧ (reorder Demo.query_server "query" "v1" Demo.put).2 = Invoked "resolve"
  ∧ match (reorder Demo.query_server "query" "v1" Demo.get).2 with
    | Wrote body => nat_of_ascii <$> String.list_ascii_of_string body
    | _ => []
    end
    = [123; 34; 99; 111; 100; 101; 34; 58; 32; 52; 48; 52; 44; 32;
       34; 100; 97; 116; 97; 34; 58; 32;
       34; 78; 111; 116; 32; 102; 111; 117; 110; 100; 32;
       113; 117; 101; 114; 121; 34; 125].
Proof.
  intros q miss.
  destruct (reorder_uniform_miss Demo.query_server "query" "v1" Demo.get)
    as (_ & _ & Hmethod & _).
  destruct (reorder_uniform_miss Demo.query_server "query" "v2" Demo.put)
    as (_ & Hversion & _).
  destruct (reorder_uniform_miss Demo.query_server "query" "v1" Demo.put)
    as (_ & _ & _ & _ & _ & Hcalled & _).
  assert (reorder Demo.query_server "query" "v1" Demo.get = ([], miss)) as Hget.
  { eapply Hmethod; vm_compute; reflexivity. }
  split_and!.
  - exact Hget.
  - eapply Hversion; vm_compute; reflexivity.
  - apply Hcalled. eexists _, _. split_and!; vm_compute; reflexivity.
  - rewrite Hget. vm_compute. reflexivity.
Defined.

(** C4 at an endpoint of level PRIVATE: the versioned path answers as it
    does on a server that does not know the endpoint. *)
Lemma private_fails_closed_witness :
  (isAllowed Demo.private_api Demo.put).2 = false
  ∧ (reorder Demo.private_server "admin" "v1" Demo.put).2
    = (reorder (emptyApiServer "" "") "admin" "v1" Demo.put).2.
Proof.
  destruct (private_fails_closed Demo.private_server "admin" Demo.private_api Demo.put)
    as (Hdeny & _ & Hsame & _).
  - vm_compute. reflexivity.
  - reflexivity.
  - split; [exact Hdeny|]. apply Hsame. reflexivity.
Defined.

(** C5 at a fresh endpoint: [handle] panics and the registry stays. *)
Lemma version_precedes_handle_witness :
  handle "query" "PUT" "resolve" Demo.unversioned
  = Panicked version_first Demo.unversioned.
Proof.
  destruct (version_precedes_handle Demo.unversioned "query" (newApi "query")
              "PUT" "resolve") as (Hpanic & _).
  - vm_compute. reflexivity.
  - apply Hpanic. reflexivity.
Defined.

(** C6 at the second binding of PUT, under [v2]: the default stays [v1],
    and [v1] keeps its handler. *)
Lemma default_version_bookkeeping_witness :
  ∃ api',
    endpoints Demo.bound_v2 !! "query" = Some api'
    ∧ mainlines api' !! "PUT" = Some "v1"
    ∧ versions api' !! "v1" = versions Demo.selected_v2_api !! "v1".
Proof.
  destruct (default_version_bookkeeping Demo.selected_v2 "query" Demo.selected_v2_api
              "PUT" "second" "query" Demo.bound_v2)
    as (api' & Hself & _ & Hkept & _ & Hother & _).
  - vm_compute. reflexivity.
  - vm_compute. reflexivity.
  - exists api'. split_and!; [exact Hself| |].
    + apply Hkept. vm_compute. reflexivity.
    + apply Hother. discriminate.
Defined.

(** C7 on a server with base [api] and versions [v1] and [v2]. *)
Lemma mock_mounts_versioned_paths_witness :
  ∃ srv',
    mock "query" "/query" Demo.two_versions = Done "query" srv'
    ∧ router srv'
      ≡ₚ [("/api/v1/query", ReorderClosure "query" "v1");
          ("/api/v2/query", ReorderClosure "query" "v2");
          ("/api/query", AliasClosure "query" "/api/query")].
Proof.
  destruct (mock_mounts_versioned_paths Demo.two_versions "query"
              Demo.two_versions_api "/query")
    as (_ & _ & _ & _ & _ & _ & Hmount).
  - vm_compute. reflexivity.
  - destruct Hmount as (srv' & api' & a & Hdone & Hrouter & _).
    + vm_compute. reflexivity.
    + exists srv'. split; [exact Hdone|]. rewrite Hrouter.
      vm_compute. reflexivity.
Defined.

(** C8 at the messages pong (quoted) and an array (raw), with the bytes
    of the first as numbers. *)
Lemma pack_envelope_formatting_witness :
  let q := String "034" "" in
  @pack string 200 "pong"
  = Wrote ("{" +:+ q +:+ "code" +:+ q +:+ ": 200, "
           +:+ q +:+ "data" +:+ q +:+ ": " +:+ q +:+ "pong" +:+ q +:+ "}")
  ∧ @pack string 404 "[1, 2]"
    = Wrote ("{" +:+ q +:+ "code" +:+ q +:+ ": 404, "
             +:+ q +:+ "data" +:+ q +:+ ": [1, 2]}")
  ∧ match @pack string 200 "pong" with
    | Wrote body => nat_of_ascii <$> String.list_ascii_of_string body
    | _ => []
    end
    = [123; 34; 99; 111; 100; 101; 34; 58; 32; 50; 48; 48; 44; 32;
       34; 100; 97; 116; 97; 34; 58; 32; 34; 112; 111; 110; 103; 34; 125].
Proof.
  intros q.
  assert (@pack string 200 "pong"
          = Wrote ("{" +:+ q +:+ "code" +:+ q +:+ ": 200, "
                   +:+ q +:+ "data" +:+ q +:+ ": " +:+ q +:+ "pong" +:+ q +:+ "}"))
    as Hpong.
  { rewrite (pack_envelope_formatting (Handler:=string) 200 "pong"); [|discriminate].
    vm_compute. reflexivity. }
  split_and!.
  - exact Hpong.
  - rewrite (pack_envelope_formatting (Handler:=string) 404 "[1, 2]"); [|discriminate].
    vm_compute. reflexivity.
  - rewrite Hpong. vm_compute. reflexivity.
Defined.

(** C9 at the empty message and at the alias of [Demo.bound_v2]. *)
Lemma pack_partial_on_empty_message_witness :
  @pack string 404 "" = Crashed index_out_of_range
  ∧ ∀ r msg,
      (serve Demo.bound_v2 (AliasClosure "query" "/query") r).2 ≠ Crashed msg.
Proof.
  destruct (pack_partial_on_empty_message (Handler:=string))
    as (Hempty & _ & _ & _ & Hserve).
  split; [apply Hempty|].
  intros r msg. apply (Hserve Demo.bound_v2) with (path := "/query").
  - apply (run_reachable
             [CallAlias "query" "/query"; CallVersion "query" "v2";
              CallHandle "query" "PUT" "second"] Demo.bound_v1).
    + exact bound_v1_reachable.
    + vm_compute. reflexivity.
  - vm_compute. apply list_elem_of_In. cbn. auto.
Defined.

(** C10 at the first reference to [query] on an empty server. *)
Lemma fresh_endpoint_defaults_witness :
  ∃ srv' api,
    endpoint "query" (@emptyApiServer string "" "") = Done "query" srv'
    ∧ endpoints srv' !! "query" = Some api
    ∧ enable api = true ∧ level api = PUBLIC ∧ main api = ""
    ∧ (∀ r, isAllowed api r = ([], true))
    ∧ endpoint "query" srv' = Done "query" srv'.
Proof.
  destruct (fresh_endpoint_defaults (@emptyApiServer string "" "") "query")
    as (srv' & api & Hdone & Hself & He & Hl & Hm & _ & _ & _ & _ & Hopen & _ & _ & Hagain & _).
  - reflexivity.
  - exists srv', api. by split_and!.
Defined.

(** * Further properties of the package *)

Section Extras.

Context {Handler : Type}.

Implicit Types (srv : ApiServer Handler) (api : Api Handler) (r : Request).
Implicit Types (code message path method : string).

(** ** The access policy and the two kinds of closure *)

(** X1: the access policy lets a request through exactly when the endpoint
    is enabled and at level PUBLIC; levels PRIVATE and PROTECTED, a disabled
    endpoint and an unknown level refuse every request.  The remote address
    is printed exactly when an enabled endpoint is at PRIVATE or
    PROTECTED. *)
Theorem isAllowed_only_public_enabled api r :
  ((isAllowed api r).2 = true ↔ enable api = true ∧ level api = PUBLIC)
  ∧ (isAllowed api r).1
    = (if enable api && bool_decide (level api = PRIVATE ∨ level api = PROTECTED)
       then [RemoteAddr r] else []).
Proof.
  unfold isAllowed, isLocal, isInternal, PUBLIC, PRIVATE, PROTECTED.
  destruct (enable api); cbn [negb andb].
  - repeat case_decide; case_bool_decide; cbn; split; try done; try lia.
    all: split; [done|]; intros [_ ?]; lia.
  - split; [|done]. split; [done|]. by intros [? _].
Qed.

Lemma alias_miss_when_absent srv self api a path r :
  registry_consistent srv →
  endpoints srv !! self = Some api →
  aliases api !! path = Some a →
  code a !! Method r = None →
  serve srv (AliasClosure self path) r
  = ([], Wrote (envelope_quoted 404 (not_found path))).
Proof.
  intros Hsrv Hself Hpath Hcode. cbn [serve]. unfold alias_closure.
  rewrite Hself, Hpath, Hcode. change (default "" None) with "".
  destruct (versions api !! "") as [ver|] eqn:Hver; [|done].
  rewrite (ac_unset (rc_endpoints Hsrv _ _ Hself) _ Hver). by rewrite lookup_empty.
Qed.

(** X3: on a registry the configuration calls built, a request whose
    method has no entry in the map of an alias gets the miss of the alias,
    and keeps getting it whatever calls follow, also calls that bind the
    method. *)
Theorem alias_without_default_misses srv self api a path r cs srv' :
  reachable srv →
  endpoints srv !! self = Some api →
  aliases api !! path = Some a →
  code a !! Method r = None →
  run cs srv = Done () srv' →
  serve srv' (AliasClosure self path) r
  = ([], Wrote (envelope_quoted 404 (not_found path))).
Proof.
  intros Hsrv Hself Hpath Hcode Hrun.
  destruct (run_alias_frozen _ _ _ _ _ _ _ Hrun Hself Hpath) as (api' & Hself' & Hpath').
  eapply alias_miss_when_absent; [|done..].
  apply reachable_consistent. by eapply run_reachable.
Qed.

(** X4: on a registry the configuration calls built, a request whose
    method has an entry in the map of an alias always reaches a handler:
    the version of the entry exists, holds a handler for the method, and is
    also the live default of the method; the alias answers as the closure
    of [reorder] for that version does. *)
Theorem alias_with_default_hits srv self api a path r v :
  reachable srv →
  endpoints srv !! self = Some api →
  aliases api !! path = Some a →
  code a !! Method r = Some v →
  ∃ ver handler,
    mainlines api !! Method r = Some v
    ∧ versions api !! v = Some ver
    ∧ methods ver !! Method r = Some handler
    ∧ serve srv (AliasClosure self path) r = ([], Invoked handler)
    ∧ serve srv (ReorderClosure self v) r = ([], Invoked handler).
Proof.
  intros Hsrv%reachable_consistent Hself Hpath Hcode.
  pose proof (rc_endpoints Hsrv _ _ Hself) as Hapi.
  assert (mainlines api !! Method r = Some v) as Hlive.
  { eapply lookup_weaken; [done|]. by eapply (ac_alias Hapi). }
  destruct (ac_default Hapi _ _ Hlive) as [_ (ver & Hver & [handler Hh])].
  exists ver, handler. split_and!; try done.
  - cbn [serve]. unfold alias_closure. rewrite Hself, Hpath, Hcode.
    change (default "" (Some v)) with v. rewrite Hver, Hh.
    by rewrite (isAllowed_public _ _ (ac_enable Hapi) (ac_level Hapi)).
  - cbn [serve]. unfold reorder. rewrite Hself, Hver, Hh.
    by rewrite (isAllowed_public _ _ (ac_enable Hapi) (ac_level Hapi)).
Qed.

(** X5: on a registry the configuration calls built, the endpoint and the
    version of every registered closure of [reorder] exist, so the only
    miss such a route can answer is a method without handler in that
    version. *)
Theorem registered_direct_route srv dest endpoint_name code r :
  reachable srv →
  (dest, ReorderClosure endpoint_name code) ∈ router srv →
  ∃ api ver,
    endpoints srv !! endpoint_name = Some api
    ∧ versions api !! code = Some ver
    ∧ serve srv (ReorderClosure endpoint_name code) r
      = match methods ver !! Method r with
        | Some handler => ([], Invoked handler)
        | None => ([], Wrote (envelope_quoted 404 (not_found endpoint_name)))
        end.
Proof.
  intros Hsrv%reachable_consistent Hin.
  destruct (rc_direct_routes Hsrv _ _ _ Hin) as (api & Hself & [ver Hver]).
  pose proof (rc_endpoints Hsrv _ _ Hself) as Hapi.
  exists api, ver. split_and!; try done.
  cbn [serve]. unfold reorder. rewrite Hself, Hver.
  destruct (methods ver !! Method r); [|done].
  by rewrite (isAllowed_public _ _ (ac_enable Hapi) (ac_level Hapi)).
Qed.

(** ** How configuration calls compose *)

(** X6: [NewApiServer] completes for every handler and ignores the agent
    name.  It leaves one endpoint, [query], with PUT bound under [v1], and
    two routes.  Because it mounts before it binds, the alias [/query] holds
    no default: every request through it gets the miss of the alias, PUT
    included, while the versioned path calls the handler for PUT and misses
    for every other method. *)
Theorem NewApiServer_registry (resolve : Handler) user_agent :
  let api :=
    {| aliases := {[ "/query" := {| code := ∅ |} ]};
       versions := {[ "v1" := {| methods := {[ "PUT" := resolve ]} |} ]};
       mainlines := {[ "PUT" := "v1" ]};
       level := PUBLIC; enable := true; name := "query"; main := "v1" |} in
  let srv :=
    {| endpoints := {[ "query" := api ]};
       router := [("/v1/query", ReorderClosure "query" "v1");
                  ("/query", AliasClosure "query" "/query")];
       base := ""; agent := "" |} in
  NewApiServer resolve user_agent = Done "query" srv
  ∧ (∀ r, serve srv (ReorderClosure "query" "v1") r
          = if decide (Method r = "PUT") then ([], Invoked resolve)
            else ([], Wrote (envelope_quoted 404 (not_found "query"))))
  ∧ (∀ r, serve srv (AliasClosure "query" "/query") r
          = ([], Wrote (envelope_quoted 404 (not_found "/query")))).
Proof.
  intros api srv. split_and!.
  - vm_compute. reflexivity.
  - intros r. cbn [serve]. unfold reorder. subst srv api. cbn [endpoints].
    rewrite lookup_singleton_eq. cbn [versions]. rewrite lookup_singleton_eq.
    cbn [methods]. case_decide as Hm.
    + by rewrite Hm, lookup_singleton_eq.
    + by rewrite lookup_singleton_ne.
  - intros r. cbn [serve]. unfold alias_closure. subst srv api. cbn [endpoints].
    rewrite lookup_singleton_eq. cbn [aliases]. rewrite lookup_singleton_eq.
    cbn [code]. rewrite lookup_empty. change (default "" None) with "".
    cbn [versions]. by rewrite lookup_singleton_ne.
Qed.

(** X7: mounting after binding serves.  When a method has a default
    version on an endpoint of a registry the configuration calls built and
    [mock] completes, both the route of that version and the alias are
    registered and both call the handler stored for the method under that
    version. *)
Theorem mock_after_handle_serves srv self api path r v srv' :
  reachable srv →
  endpoints srv !! self = Some api →
  mainlines api !! Method r = Some v →
  mock self path srv = Done self srv' →
  ∃ ver handler,
    versions api !! v = Some ver
    ∧ methods ver !! Method r = Some handler
    ∧ (spec_versioned_path (base srv) v path, ReorderClosure self v) ∈ router srv'
    ∧ (spec_alias_path (base srv) path,
       AliasClosure self (spec_alias_path (base srv) path)) ∈ router srv'
    ∧ serve srv' (ReorderClosure self v) r = ([], Invoked handler)
    ∧ serve srv' (AliasClosure self (spec_alias_path (base srv) path)) r
      = ([], Invoked handler).
Proof.
  intros Hsrv%reachable_consistent Hself Hdefault Hmock.
  pose proof (rc_endpoints Hsrv _ _ Hself) as Hapi.
  destruct (ac_default Hapi _ _ Hdefault) as [_ (ver & Hver & [handler Hh])].
  pose proof (call_spec (CallMock self path) srv) as Hres. cbn [call] in Hres.
  rewrite Hmock in Hres. inversion Hres; simplify_eq.
  rewrite <-mock_alias_path_spec. set (alias_path := mock_alias_path (base srv) path).
  set (api' := declare_alias alias_path api).
  set (srv' := with_route alias_path _ (with_endpoint self api' _)).
  assert (endpoints srv' !! self = Some api') as Hself'.
  { cbn. apply lookup_insert_eq. }
  assert (isAllowed api' r = ([], true)) as Hopen.
  { apply isAllowed_public; [exact (ac_enable Hapi)|exact (ac_level Hapi)]. }
  exists ver, handler. split_and!; try done.
  - cbn. rewrite !elem_of_app. left. right. unfold mock_routes.
    apply list_elem_of_fmap. exists v. rewrite (ac_name Hapi), mock_dest_spec.
    split; [done|]. apply version_keys_listed. eauto.
  - cbn. rewrite !elem_of_app. right. by apply list_elem_of_singleton.
  - cbn [serve]. unfold reorder. rewrite Hself'.
    change (versions api') with (versions api). by rewrite Hver, Hh, Hopen.
  - cbn [serve]. unfold alias_closure. rewrite Hself'.
    assert (aliases api' !! alias_path
            = Some {| code := copy_mainlines (mainlines api) |}) as ->.
    { cbn. apply lookup_insert_eq. }
    cbn [code]. rewrite copy_mainlines_id, Hdefault.
    change (default "" (Some v)) with v.
    change (versions api') with (versions api). by rewrite Hver, Hh, Hopen.
Qed.

(** X8: binding a method twice under the same version is binding the
    last handler only: the second call replaces the handler of the first
    and leaves the registry as if the first had not been made. *)
Theorem handle_rebinding_replaces srv self method (h1 h2 : Handler) srv1 :
  handle self method h1 srv = Done self srv1 →
  handle self method h2 srv1 = handle self method h2 srv
  ∧ ∃ srv2 api api2 ver2,
      endpoints srv !! self = Some api
      ∧ handle self method h2 srv1 = Done self srv2
      ∧ endpoints srv2 !! self = Some api2
      ∧ versions api2 !! main api = Some ver2
      ∧ methods ver2 !! method = Some h2.
Proof.
  intros Hfirst.
  pose proof (call_spec (CallHandle self method h1) srv) as Hres. cbn [call] in Hres.
  rewrite Hfirst in Hres. inversion Hres as [| | | | | |? ? ? api ver Hself Hmain Hver| | | |];
    simplify_eq.
  set (api1 := bind_handler method h1 ver api).
  set (srv1 := with_endpoint self api1 srv).
  assert (endpoints srv1 !! self = Some api1) as Hself1.
  { cbn. apply lookup_insert_eq. }
  assert (versions api1 !! main api1
          = Some {| methods := <[method := h1]> (methods ver) |}) as Hver1.
  { cbn. apply lookup_insert_eq. }
  rewrite (handle_bound _ _ _ _ _ _ Hself1 Hmain Hver1).
  rewrite (handle_bound _ _ _ _ _ _ Hself Hmain Hver).
  assert (with_endpoint self
            (bind_handler method h2 {| methods := <[method := h1]> (methods ver) |} api1)
            srv1
          = with_endpoint self (bind_handler method h2 ver api) srv) as ->.
  { unfold with_endpoint, srv1. cbn [endpoints router base agent with_endpoint].
    rewrite insert_insert_eq. f_equal. f_equal.
    unfold bind_handler, api1. cbn [aliases versions mainlines level enable name main
                                      bind_handler methods].
    rewrite !insert_insert_eq. f_equal.
    destruct (mainlines api !! method) as [v|] eqn:Hdef.
    - by rewrite Hdef.
    - by rewrite lookup_insert_eq. }
  split; [done|].
  eexists _, api, _, _. split_and!; [done|done| | |].
  - cbn. apply lookup_insert_eq.
  - cbn. apply lookup_insert_eq.
  - cbn. apply lookup_insert_eq.
Qed.

(** X9: [version] through an existing endpoint never panics and touches
    neither routes, aliases nor defaults.  Selecting a version that exists
    keeps all its handlers; selecting a new key creates a version without
    handlers and leaves the others alone; and selecting the same key again
    changes nothing. *)
Theorem version_reselect_keeps_handlers srv self api code :
  endpoints srv !! self = Some api →
  ∃ srv' api',
    version self code srv = Done self srv'
    ∧ endpoints srv' !! self = Some api'
    ∧ main api' = code
    ∧ router srv' = router srv
    ∧ aliases api' = aliases api
    ∧ mainlines api' = mainlines api
    ∧ (is_Some (versions api !! code) → versions api' = versions api)
    ∧ (versions api !! code = None →
         versions api' !! code = Some {| methods := ∅ |}
         ∧ ∀ other, other ≠ code → versions api' !! other = versions api !! other)
    ∧ version self code srv' = Done self srv'.
Proof.
  intros Hself.
  exists (with_endpoint self (select_version code api) srv), (select_version code api).
  assert (endpoints (with_endpoint self (select_version code api) srv) !! self
          = Some (select_version code api)) as Hself'.
  { cbn. apply lookup_insert_eq. }
  split_and!; try done.
  - by apply version_spec.
  - intros [ver Hver]. cbn. by rewrite Hver.
  - intros Hnew. cbn. rewrite Hnew. split; [apply lookup_insert_eq|].
    intros other Hother. by rewrite lookup_insert_ne.
  - rewrite (version_spec _ _ _ _ Hself'). f_equal.
    unfold with_endpoint. cbn [endpoints router base agent].
    rewrite insert_insert_eq. f_equal. f_equal.
    unfold select_version. cbn [aliases versions mainlines level enable name main].
    f_equal. destruct (versions api !! code) as [ver|] eqn:Hver.
    + by rewrite Hver.
    + by rewrite lookup_insert_eq.
Qed.

(** X10: the empty string is a version key like any other for [version],
    which creates the version, but [handle] reads it as no version
    selected: after [version] with the empty key every [handle] panics and
    stores nothing, so on a registry the configuration calls built the
    version of the empty key never holds a handler. *)
Theorem empty_version_key_never_binds srv self api :
  endpoints srv !! self = Some api →
  (∃ srv1 api1,
     version self "" srv = Done self srv1
     ∧ endpoints srv1 !! self = Some api1
     ∧ is_Some (versions api1 !! "")
     ∧ ∀ method (handler : Handler),
         handle self method handler srv1 = Panicked version_first srv1)
  ∧ (reachable srv → ∀ ver, versions api !! "" = Some ver → methods ver = ∅).
Proof.
  intros Hself. split.
  - exists (with_endpoint self (select_version "" api) srv), (select_version "" api).
    assert (endpoints (with_endpoint self (select_version "" api) srv) !! self
            = Some (select_version "" api)) as Hself'.
    { cbn. apply lookup_insert_eq. }
    split_and!; try done.
    + by apply version_spec.
    + cbn. destruct (versions api !! "") eqn:Hver; [by rewrite Hver|].
      by rewrite lookup_insert_eq.
    + intros method handler. by apply (handle_unset _ _ (select_version "" api)).
  - intros Hsrv%reachable_consistent. exact (ac_unset (rc_endpoints Hsrv _ _ Hself)).
Qed.

(** ** What a call leaves alone, and what configuration only adds *)

(** X11: a call changes the endpoint it goes through and no other one,
    whether it completes or panics; [endpoint] changes no endpoint that
    exists. *)
Theorem call_leaves_other_endpoints (c : Call Handler) srv key :
  call_target c ≠ Some key →
  (c = CallEndpoint key → is_Some (endpoints srv !! key)) →
  endpoints (final_state (call c srv)) !! key = endpoints srv !! key.
Proof.
  intros Htarget Hendpoint.
  generalize (call_spec c srv). generalize (call c srv). intros res Hres.
  destruct Hres as [name api Hname|name Hname| | | | | | | | |]; cbn in *; try done.
  - rewrite lookup_insert_ne; [done|]. intros ->.
    destruct Hendpoint as [api Hapi]; [done|]. by rewrite Hname in Hapi.
  - rewrite lookup_insert_ne; [done|]. congruence.
  - rewrite lookup_insert_ne; [done|]. congruence.
  - rewrite lookup_insert_ne; [done|]. congruence.
  - rewrite lookup_insert_ne; [done|]. congruence.
Qed.

Lemma api_extends_refl api : api_extends api api.
Proof. unfold api_extends. split_and!; try done. eauto. Qed.

Lemma api_extends_trans api1 api2 api3 :
  api_extends api1 api2 → api_extends api2 api3 → api_extends api1 api3.
Proof.
  intros (Hn1 & Hl1 & He1 & Hv1 & Ha1 & Hm1) (Hn2 & Hl2 & He2 & Hv2 & Ha2 & Hm2).
  unfold api_extends. split_and!; try congruence.
  - intros v ver Hver. destruct (Hv1 _ _ Hver) as (ver2 & Hver2 & Hb2).
    destruct (Hv2 _ _ Hver2) as (ver3 & Hver3 & Hb3). eauto.
  - eauto.
  - by etrans.
Qed.

Lemma select_version_extends api code : api_extends api (select_version code api).
Proof.
  unfold api_extends. split_and!; try done.
  intros v ver Hver. exists ver. split; [|done]. cbn.
  destruct (versions api !! code) eqn:Hcode; [done|].
  rewrite lookup_insert_ne; [done|]. congruence.
Qed.

Lemma bind_handler_extends api ver method (handler : Handler) :
  versions api !! main api = Some ver →
  api_extends api (bind_handler method handler ver api).
Proof.
  intros Hmain. unfold api_extends. split_and!; try done.
  - intros v ver0 Hver0. cbn. destruct (decide (main api = v)) as [<-|Hne].
    + rewrite lookup_insert_eq. eexists. split; [done|]. cbn. simplify_eq.
      intros m Hm. destruct (decide (method = m)) as [->|].
      * by rewrite lookup_insert_eq.
      * by rewrite lookup_insert_ne.
    + rewrite lookup_insert_ne by done. eauto.
  - cbn. destruct (mainlines api !! method) eqn:Hdef; [done|]. by apply insert_subseteq.
Qed.

Lemma declare_alias_extends api path :
  aliases api !! path = None → api_extends api (declare_alias path api).
Proof.
  intros Hfresh. unfold api_extends. split_and!; try done; [eauto|].
  intros p a Hp. cbn. rewrite lookup_insert_ne; [done|]. congruence.
Qed.

Lemma registry_extends_refl srv : registry_extends srv srv.
Proof.
  unfold registry_extends. split_and!; try done.
  - exists []. by rewrite app_nil_r.
  - intros key api Hkey. eauto using api_extends_refl.
Qed.

Lemma registry_extends_trans srv1 srv2 srv3 :
  registry_extends srv1 srv2 → registry_extends srv2 srv3 → registry_extends srv1 srv3.
Proof.
  intros ([l1 Hr1] & Hb1 & Ha1 & He1) ([l2 Hr2] & Hb2 & Ha2 & He2).
  unfold registry_extends. split_and!; try congruence.
  - exists (l1 ++ l2)%list. by rewrite Hr2, Hr1, app_assoc.
  - intros key api Hkey. destruct (He1 _ _ Hkey) as (api2 & Hkey2 & Hx2).
    destruct (He2 _ _ Hkey2) as (api3 & Hkey3 & Hx3).
    eauto using api_extends_trans.
Qed.

Lemma with_endpoint_extends srv self api api' :
  endpoints srv !! self = Some api →
  api_extends api api' →
  registry_extends srv (with_endpoint self api' srv).
Proof.
  intros Hself Hx. unfold registry_extends. split_and!; try done.
  - exists []. by rewrite app_nil_r.
  - intros key api0 Hkey. cbn. destruct (decide (self = key)) as [->|Hne].
    + rewrite lookup_insert_eq. simplify_eq. eauto.
    + rewrite lookup_insert_ne by done. eauto using api_extends_refl.
Qed.

Lemma with_endpoint_fresh_extends srv key (api : Api Handler) :
  endpoints srv !! key = None →
  registry_extends srv (with_endpoint key api srv).
Proof.
  intros Hkey. unfold registry_extends. split_and!; try done.
  - exists []. by rewrite app_nil_r.
  - intros k api0 Hk. cbn. rewrite lookup_insert_ne by congruence.
    eauto using api_extends_refl.
Qed.

Lemma with_routes_extends srv l : registry_extends srv (with_routes l srv).
Proof.
  unfold registry_extends. split_and!; try done; [by exists l|].
  intros key api Hkey. eauto using api_extends_refl.
Qed.

Lemma with_route_extends srv path f : registry_extends srv (with_route path f srv).
Proof. apply (with_routes_extends srv [(path, f)]). Qed.

Lemma call_extends (c : Call Handler) srv :
  registry_extends srv (final_state (call c srv)).
Proof.
  generalize (call_spec c srv). generalize (call c srv). intros res Hres.
  destruct Hres; cbn [final_state]; try apply registry_extends_refl.
  - by apply with_endpoint_fresh_extends.
  - eapply with_endpoint_extends; [done|]. apply select_version_extends.
  - eapply with_endpoint_extends; [done|]. by apply bind_handler_extends.
  - eapply registry_extends_trans; [|apply with_route_extends].
    eapply with_endpoint_extends; [done|]. by apply declare_alias_extends.
  - apply with_routes_extends.
  - eapply registry_extends_trans; [apply with_routes_extends|].
    eapply registry_extends_trans; [|apply with_route_extends].
    eapply with_endpoint_extends; [done|]. by apply declare_alias_extends.
Qed.

(** X12: configuration only adds.  Whatever a script of calls does, and
    whether it completes or stops at a panic, the routes it started with
    are still a prefix of the routes, base and agent are the same, every
    endpoint is still there under its name with its level and its enabled
    flag, every version with at least its bound methods, every alias with
    the map it had, and every default version. *)
Theorem run_only_adds (cs : list (Call Handler)) srv :
  registry_extends srv (final_state (run cs srv)).
Proof.
  revert srv. induction cs as [|c cs IH]; intros srv.
  - apply registry_extends_refl.
  - cbn [run]. unfold mbind, cfg_mbind, cfg_bind.
    pose proof (call_extends c srv) as Hc.
    destruct (call c srv) as [ref srv1|msg srv1]; cbn [final_state] in *.
    + eapply registry_extends_trans; [done|]. apply IH.
    + done.
Qed.

(** X13: a call that panics leaves every endpoint, the base and the agent
    as they were.  Only [mock] leaves a trace, the routes of its loop at
    the end of the router; after a panic of any other call the registry is
    the one before the call. *)
Theorem failed_call_changes_no_endpoint (c : Call Handler) srv msg srv' :
  call c srv = Panicked msg srv' →
  endpoints srv' = endpoints srv
  ∧ base srv' = base srv
  ∧ agent srv' = agent srv
  ∧ (∃ added, router srv' = (router srv ++ added)%list)
  ∧ ((∀ self path, c ≠ CallMock self path) → srv' = srv).
Proof.
  intros Hcall. pose proof (call_spec c srv) as Hres. rewrite Hcall in Hres.
  assert (∃ added : list (string * Closure), router srv = (router srv ++ added)%list)
    as Hsame by (exists []; by rewrite app_nil_r).
  inversion Hres; simplify_eq; split_and!; try done.
  - by eexists.
  - intros Hmock. by destruct (Hmock self path).
Qed.

(** X14: on a registry the configuration calls built, the second panic
    of [handle], the one about a version that is set and does not exist,
    never fires: through an existing endpoint [handle] completes exactly
    when a current version is set, and otherwise panics with the message
    of the first check. *)
Theorem handle_on_reachable srv self api method (handler : Handler) :
  reachable srv →
  endpoints srv !! self = Some api →
  (main api ≠ "" ↔ ∃ srv', handle self method handler srv = Done self srv')
  ∧ (main api = "" ↔ handle self method handler srv = Panicked version_first srv)
  ∧ ∀ srv', handle self method handler srv ≠ Panicked version_missing srv'.
Proof.
  intros Hsrv%reachable_consistent Hself.
  pose proof (rc_endpoints Hsrv _ _ Hself) as Hapi.
  destruct (decide (main api = "")) as [Hmain|Hmain].
  - rewrite (handle_unset _ _ _ _ _ Hself Hmain). split_and!.
    + split; [done|]. by intros [srv' ?].
    + done.
    + intros srv'. by intros [=].
  - destruct (ac_main Hapi Hmain) as [ver Hver].
    rewrite (handle_bound _ _ _ _ _ _ Hself Hmain Hver). split_and!.
    + split; [eauto|done].
    + split; [done|]. by intros ?.
    + done.
Qed.

(** ** Edge cases *)

(** X15: a message of one byte is never taken for an object or an array,
    whatever the byte: [pack] reads it as first and as last byte and writes
    it between two double quotes (the character of code 34), after the
    status in decimal. *)
Theorem pack_single_byte_quoted (status : Z) (c : Ascii.ascii) :
  let q := String "034" "" in
  @pack Handler status (String c "")
  = Wrote ("{" +:+ q +:+ "code" +:+ q +:+ ": " +:+ pretty status +:+ ", "
           +:+ q +:+ "data" +:+ q +:+ ": " +:+ q +:+ String c "" +:+ q +:+ "}").
Proof.
  intros q. rewrite pack_nonempty by done.
  unfold looks_like_json, starts_with, ends_with. cbn [first_byte last_byte].
  rewrite <-envelope_quoted_text.
  by repeat case_bool_decide; simplify_eq.
Qed.

(** X16: [mock] through an endpoint without versions registers the alias
    and no other route; on a registry the configuration calls built that
    alias has an empty map, so it answers every request with its miss, now
    and after any further calls. *)
Theorem mock_without_versions srv self api path srv' :
  reachable srv →
  endpoints srv !! self = Some api →
  versions api = ∅ →
  mock self path srv = Done self srv' →
  let alias_path := spec_alias_path (base srv) path in
  router srv' = (router srv ++ [(alias_path, AliasClosure self alias_path)])%list
  ∧ ∀ cs srv'' r,
      run cs srv' = Done () srv'' →
      serve srv'' (AliasClosure self alias_path) r
      = ([], Wrote (envelope_quoted 404 (not_found alias_path))).
Proof.
  intros Hsrv Hself Hempty Hmock alias_path.
  assert (reachable srv') as Hsrv' by (by eapply (reachable_call _ (CallMock self path))).
  pose proof (rc_endpoints (reachable_consistent _ Hsrv) _ _ Hself) as Hapi.
  assert (mainlines api = ∅) as Hnone.
  { apply map_eq. intros method. rewrite lookup_empty.
    destruct (mainlines api !! method) as [v|] eqn:Hv; [|done].
    destruct (ac_default Hapi _ _ Hv) as [_ (ver & Hver & _)].
    by rewrite Hempty, lookup_empty in Hver. }
  pose proof (call_spec (CallMock self path) srv) as Hres. cbn [call] in Hres.
  rewrite Hmock in Hres. inversion Hres; simplify_eq.
  subst alias_path. rewrite <-mock_alias_path_spec.
  set (alias_path := mock_alias_path (base srv) path).
  split.
  - cbn. unfold mock_routes. rewrite Hempty, map_to_list_empty. cbn.
    by rewrite app_nil_r.
  - intros cs srv'' r Hrun.
    set (a := {| code := copy_mainlines (mainlines api) |}).
    assert (∃ api', endpoints srv'' !! self = Some api' ∧ aliases api' !! alias_path = Some a)
      as (api' & Hself' & Ha).
    { eapply run_alias_frozen; [done| |].
      - cbn. apply lookup_insert_eq.
      - cbn. apply lookup_insert_eq. }
    eapply alias_miss_when_absent; [|done..|].
    + apply reachable_consistent. by eapply run_reachable.
    + subst a. cbn. by rewrite copy_mainlines_id, Hnone, lookup_empty.
Qed.

(** ** Live reads and closed endpoints *)

(** X17: the closure of [reorder] reads the registry when the request
    arrives, so a binding made after the route was registered is served:
    after [handle] completes, a request with the bound method through the
    current version calls the new handler, while requests with another
    method, through another version or through another endpoint are
    answered as before. *)
Theorem direct_route_reads_live_registry srv self api method (handler : Handler)
    srv' r :
  reachable srv →
  endpoints srv !! self = Some api →
  handle self method handler srv = Done self srv' →
  (Method r = method →
     serve srv' (ReorderClosure self (main api)) r = ([], Invoked handler))
  ∧ (Method r ≠ method →
       serve srv' (ReorderClosure self (main api)) r
       = serve srv (ReorderClosure self (main api)) r)
  ∧ (∀ v, v ≠ main api →
       serve srv' (ReorderClosure self v) r = serve srv (ReorderClosure self v) r)
  ∧ (∀ other v, other ≠ self →
       serve srv' (ReorderClosure other v) r = serve srv (ReorderClosure other v) r).
Proof.
  intros Hsrv%reachable_consistent Hself Hhandle.
  pose proof (rc_endpoints Hsrv _ _ Hself) as Hapi.
  pose proof (call_spec (CallHandle self method handler) srv) as Hres.
  cbn [call] in Hres. rewrite Hhandle in Hres. inversion Hres; simplify_eq.
  set (api' := bind_handler method handler ver api).
  assert (endpoints (with_endpoint self api' srv) !! self = Some api') as Hself'.
  { cbn. apply lookup_insert_eq. }
  assert (∀ req, isAllowed api' req = isAllowed api req) as Hsame by done.
  cbn [serve]. unfold reorder. rewrite Hself', Hself. split_and!.
  - intros <-. cbn [versions api' bind_handler]. rewrite lookup_insert_eq.
    cbn [methods]. rewrite lookup_insert_eq, Hsame.
    by rewrite (isAllowed_public _ _ (ac_enable Hapi) (ac_level Hapi)).
  - intros Hother. cbn [versions api' bind_handler]. rewrite lookup_insert_eq.
    cbn [methods]. rewrite lookup_insert_ne by done.
    match goal with H : versions api !! main api = Some _ |- _ => rewrite H end.
    by rewrite Hsame.
  - intros v Hv. cbn [versions api' bind_handler]. rewrite lookup_insert_ne by done.
    destruct (versions api !! v) as [ver0|]; [|done].
    destruct (methods ver0 !! Method r); [|done]. by rewrite Hsame.
  - intros other v Hother. cbn. by rewrite lookup_insert_ne.
Qed.

(** X18: an endpoint that is disabled or not at level PUBLIC answers on
    every versioned path what a registry without that endpoint answers, for
    every version and method; when it is disabled nothing is printed
    either, so the two servers cannot be told apart at all. *)
Theorem closed_endpoint_answers_as_unknown srv unknown endpoint_name api code r :
  endpoints srv !! endpoint_name = Some api →
  enable api = false ∨ level api ≠ PUBLIC →
  endpoints unknown !! endpoint_name = None →
  (reorder srv endpoint_name code r).2 = (reorder unknown endpoint_name code r).2
  ∧ (enable api = false →
       reorder srv endpoint_name code r = reorder unknown endpoint_name code r).
Proof.
  intros Hself Hclosed Hunknown. split.
  - rewrite !reorder_outcome, Hself, Hunknown.
    assert ((isAllowed api r).2 = false) as ->; [|by repeat case_match].
    unfold isAllowed, isLocal, isInternal.
    destruct (enable api); cbn [negb]; [|done].
    destruct Hclosed as [|Hlevel]; [done|]. by repeat case_decide.
  - intros Hoff. unfold reorder, isAllowed. rewrite Hself, Hunknown, Hoff. cbn [negb].
    by repeat case_match.
Qed.

End Extras.

(** * The further properties at concrete registries *)

Lemma query_server_reachable : reachable Demo.query_server.
Proof.
  apply (run_reachable Demo.query_script (emptyApiServer "" "")).
  - constructor.
  - vm_compute. reflexivity.
Qed.

Lemma bound_v2_reachable : reachable Demo.bound_v2.
Proof.
  apply (run_reachable Demo.bound_v2_script Demo.bound_v1).
  - exact bound_v1_reachable.
  - vm_compute. reflexivity.
Qed.

Lemma unversioned_reachable : reachable Demo.unversioned.
Proof.
  apply (run_reachable [CallEndpoint "query"] (emptyApiServer "" "")).
  - constructor.
  - vm_compute. reflexivity.
Qed.

(** X3 at the server of [NewApiServer]: PUT through [/query] misses, also
    after PUT is bound again under a second version. *)
Lemma alias_without_default_misses_witness :
  serve Demo.late_server (AliasClosure "query" "/query") Demo.put
  = ([], Wrote (envelope_quoted 404 (not_found "/query"))).
Proof.
  apply (alias_without_default_misses Demo.query_server "query" Demo.query_api
           {| code := ∅ |} "/query" Demo.put Demo.late_script Demo.late_server).
  - exact query_server_reachable.
  - vm_compute. reflexivity.
  - vm_compute. reflexivity.
  - vm_compute. reflexivity.
  - vm_compute. reflexivity.
Defined.

(** X4 at the alias of [Demo.bound_v2]. *)
Lemma alias_with_default_hits_witness :
  ∃ ver handler,
    mainlines Demo.bound_v2_api !! "PUT" = Some "v1"
    ∧ versions Demo.bound_v2_api !! "v1" = Some ver
    ∧ methods ver !! "PUT" = Some handler
    ∧ serve Demo.bound_v2 (AliasClosure "query" "/query") Demo.put = ([], Invoked handler)
    ∧ serve Demo.bound_v2 (ReorderClosure "query" "v1") Demo.put = ([], Invoked handler).
Proof.
  apply (alias_with_default_hits Demo.bound_v2 "query" Demo.bound_v2_api
           {| code := {[ "PUT" := "v1" ]} |} "/query" Demo.put "v1").
  - exact bound_v2_reachable.
  - vm_compute. reflexivity.
  - vm_compute. reflexivity.
  - vm_compute. reflexivity.
Defined.

(** X5 at the versioned route of the server of [NewApiServer]. *)
Lemma registered_direct_route_witness :
  ∃ api ver,
    endpoints Demo.query_server !! "query" = Some api
    ∧ versions api !! "v1" = Some ver
    ∧ serve Demo.query_server (ReorderClosure "query" "v1") Demo.get
      = match methods ver !! "GET" with
        | Some handler => ([], Invoked handler)
        | None => ([], Wrote (envelope_quoted 404 (not_found "query")))
        end.
Proof.
  apply (registered_direct_route Demo.query_server "/v1/query" "query" "v1" Demo.get).
  - exact query_server_reachable.
  - vm_compute. apply list_elem_of_In. cbn. auto.
Defined.

(** X7 at [Demo.bound_v1], mounted on [/query]. *)
Lemma mock_after_handle_serves_witness :
  ∃ ver handler,
    versions Demo.bound_v1_api !! "v1" = Some ver
    ∧ methods ver !! "PUT" = Some handler
    ∧ ("/v1/query", ReorderClosure "query" "v1") ∈ router Demo.mounted
    ∧ ("/query", AliasClosure "query" "/query") ∈ router Demo.mounted
    ∧ serve Demo.mounted (ReorderClosure "query" "v1") Demo.put = ([], Invoked handler)
    ∧ serve Demo.mounted (AliasClosure "query" "/query") Demo.put = ([], Invoked handler).
Proof.
  apply (mock_after_handle_serves Demo.bound_v1 "query" Demo.bound_v1_api "/query"
           Demo.put "v1" Demo.mounted).
  - exact bound_v1_reachable.
  - vm_compute. reflexivity.
  - vm_compute. reflexivity.
  - vm_compute. reflexivity.
Defined.

(** X8 at the second and third binding of PUT under [v2]. *)
Lemma handle_rebinding_replaces_witness :
  handle "query" "PUT" "third" Demo.bound_v2
  = handle "query" "PUT" "third" Demo.selected_v2.
Proof.
  apply (handle_rebinding_replaces Demo.selected_v2 "query" "PUT" "second" "third"
           Demo.bound_v2).
  vm_compute. reflexivity.
Defined.

(** X9 at [Demo.bound_v1], selecting [v1] again. *)
Lemma version_reselect_keeps_handlers_witness :
  ∃ srv' api',
    version "query" "v1" Demo.bound_v1 = Done "query" srv'
    ∧ endpoints srv' !! "query" = Some api'
    ∧ versions api' = versions Demo.bound_v1_api
    ∧ version "query" "v1" srv' = Done "query" srv'.
Proof.
  destruct (version_reselect_keeps_handlers Demo.bound_v1 "query" Demo.bound_v1_api "v1")
    as (srv' & api' & Hdone & Hself & _ & _ & _ & _ & Hkept & _ & Hagain).
  - vm_compute. reflexivity.
  - exists srv', api'. split_and!; try done. apply Hkept. vm_compute. eauto.
Defined.

(** X10 at a fresh endpoint. *)
Lemma empty_version_key_never_binds_witness :
  ∃ srv1,
    version "query" "" Demo.unversioned = Done "query" srv1
    ∧ handle "query" "PUT" "resolve" srv1 = Panicked version_first srv1.
Proof.
  destruct (empty_version_key_never_binds Demo.unversioned "query" (newApi "query"))
    as [(srv1 & api1 & Hdone & _ & _ & Hpanic) _].
  - vm_compute. reflexivity.
  - exists srv1. split; [exact Hdone|apply Hpanic].
Defined.

(** X11 at [Demo.two_endpoints]: an alias declared through [b] leaves [a]
    as it is. *)
Lemma call_leaves_other_endpoints_witness :
  endpoints (final_state (call (CallAlias "b" "/y") Demo.two_endpoints)) !! "a"
  = endpoints Demo.two_endpoints !! "a".
Proof.
  apply (call_leaves_other_endpoints (CallAlias "b" "/y") Demo.two_endpoints "a").
  - discriminate.
  - discriminate.
Defined.

(** X13 at a second [mock] on the path of [Demo.mounted]: the call panics,
    the endpoints are the same, the route of [v1] was registered again. *)
Lemma failed_call_changes_no_endpoint_witness :
  call (CallMock "query" "/query") Demo.mounted
  = Panicked (redefine_alias "/query") Demo.remounted
  ∧ endpoints Demo.remounted = endpoints Demo.mounted
  ∧ ∃ added, router Demo.remounted = (router Demo.mounted ++ added)%list.
Proof.
  assert (call (CallMock "query" "/query") Demo.mounted
          = Panicked (redefine_alias "/query") Demo.remounted) as Hcall.
  { vm_compute. reflexivity. }
  destruct (failed_call_changes_no_endpoint _ _ _ _ Hcall) as (Hsame & _ & _ & Hadded & _).
  split_and!; [exact Hcall|exact Hsame|exact Hadded].
Defined.

(** X14 at a fresh endpoint and at [Demo.bound_v1]. *)
Lemma handle_on_reachable_witness :
  handle "query" "PUT" "resolve" Demo.unversioned = Panicked version_first Demo.unversioned
  ∧ ∃ srv', handle "query" "GET" "list" Demo.bound_v1 = Done "query" srv'.
Proof.
  destruct (handle_on_reachable Demo.unversioned "query" (newApi "query") "PUT" "resolve")
    as (_ & Hunset & _); [exact unversioned_reachable|vm_compute; reflexivity|].
  destruct (handle_on_reachable Demo.bound_v1 "query" Demo.bound_v1_api "GET" "list")
    as (Hset & _); [exact bound_v1_reachable|vm_compute; reflexivity|].
  split.
  - by apply Hunset.
  - by apply Hset.
Defined.

(** X16 at a fresh endpoint mounted on [/q]: GET is bound afterwards and
    still misses through the alias. *)
Lemma mock_without_versions_witness :
  router Demo.mounted_early = [("/q", AliasClosure "query" "/q")]
  ∧ serve Demo.mounted_early_then_bound (AliasClosure "query" "/q") Demo.get
    = ([], Wrote (envelope_quoted 404 (not_found "/q"))).
Proof.
  destruct (mock_without_versions Demo.unversioned "query" (newApi "query") "/q"
              Demo.mounted_early) as (Hrouter & Hmiss).
  - exact unversioned_reachable.
  - vm_compute. reflexivity.
  - reflexivity.
  - vm_compute. reflexivity.
  - split; [exact Hrouter|].
    apply (Hmiss [CallVersion "query" "v1"; CallHandle "query" "GET" "list"]).
    vm_compute. reflexivity.
Defined.

(** X17 at the server of [NewApiServer], binding GET after mounting. *)
Lemma direct_route_reads_live_registry_witness :
  serve Demo.query_with_get (ReorderClosure "query" "v1") Demo.get = ([], Invoked "list")
  ∧ serve Demo.query_with_get (ReorderClosure "query" "v1") Demo.put
    = serve Demo.query_server (ReorderClosure "query" "v1") Demo.put.
Proof.
  destruct (direct_route_reads_live_registry Demo.query_server "query" Demo.query_api
              "GET" "list" Demo.query_with_get Demo.get) as (Hnew & _);
    [exact query_server_reachable|vm_compute; reflexivity..|].
  destruct (direct_route_reads_live_registry Demo.query_server "query" Demo.query_api
              "GET" "list" Demo.query_with_get Demo.put) as (_ & Hold & _);
    [exact query_server_reachable|vm_compute; reflexivity..|].
  split.
  - by apply Hnew.
  - by apply Hold.
Defined.

(** X18 at a disabled endpoint. *)
Lemma closed_endpoint_answers_as_unknown_witness :
  reorder Demo.disabled_server "admin" "v1" Demo.put
  = reorder (emptyApiServer "" "") "admin" "v1" Demo.put.
Proof.
  destruct (closed_endpoint_answers_as_unknown Demo.disabled_server
              (emptyApiServer "" "") "admin" Demo.disabled_api "v1" Demo.put)
    as (_ & Hsame).
  - vm_compute. reflexivity.
  - by left.
  - reflexivity.
  - by apply Hsame.
Defined.
